(** * Trip extraction and load: [src/lambda/trips_lambda.py]

    A shallow embedding of the trips job of the data warehouse: the
    SQL of [extract_and_load_data] (the CTEs [trip_data],
    [trip_segments], [trip_aggregates] and the final SELECT), the
    [INSERT ... ON CONFLICT] statement that loads its result, and the
    control flow of [extract_and_load_data] and [lambda_handler] with
    the exceptions the database calls can raise.

    Conventions.
    - SQL [double precision] and [numeric] values ([lat], [lon],
      durations, distances) are real numbers: rounding is not modelled.
    - A [timestamp] is its number of microseconds since the epoch, as
      PostgreSQL stores it; an interval is a difference of timestamps.
    - [bike_id], [provider_id], [lat], [lon] and [timestamp] of
      [bike_status] are taken non-NULL ([bike_id] and [timestamp] form
      the primary key of the table, see [src/lambda/bike_lambda.py]),
      and so are the eleven columns of [all_trips] that the job loads.
    - The time zone rules of the database and of [pytz] are
      parameters ([zurich], [localize], [cast_timestamp]).
    - A database call either has its effect or raises; which calls
      raise in a run is given by the environment ([faults]).  A
      [commit] that raises has committed nothing.  [trip_id] values
      come from the sequence only.  Logging is not modelled. *)

From Stdlib Require Import Reals Lra Lia ZArith List String Bool.
From Stdlib Require Import Permutation Sorted DecimalString.
Import ListNotations.

Open Scope R_scope.

(** ** Comparisons of SQL numbers, as booleans *)

Definition Rleb (x y : R) : bool := if Rle_dec x y then true else false.
Definition Rltb (x y : R) : bool := if Rlt_dec x y then true else false.
Definition Reqb (x y : R) : bool := if Req_dec_T x y then true else false.

(** ** The distance expression (lines 119-125)

    [6371 * 2 * asin(sqrt(power(sin(radians(lat - prev_lat) / 2), 2) +
      cos(radians(prev_lat)) * cos(radians(lat)) *
      power(sin(radians(lon - prev_lon) / 2), 2)))]

    PostgreSQL's [asin] raises outside [-1, 1] and [sqrt] raises on a
    negative number; [haversine_arg_range] below shows that over the
    reals the argument of [sqrt] stays in [0, 1], so the embedding
    uses the total functions. *)

Module Haversine.

Definition radians (deg : R) : R := deg * PI / 180.

Definition power2 (x : R) : R := x ^ 2.

(** The argument of [sqrt]. *)
Definition haversine_arg (prev_lat prev_lon lat lon : R) : R :=
  power2 (sin (radians (lat - prev_lat) / 2)) +
  cos (radians prev_lat) * cos (radians lat) *
  power2 (sin (radians (lon - prev_lon) / 2)).

Definition haversine_km (prev_lat prev_lon lat lon : R) : R :=
  6371 * 2 * asin (sqrt (haversine_arg prev_lat prev_lon lat lon)).

End Haversine.


(** ** Tables and rows *)

(** A row of the source table [bike_status], with the columns the
    extraction reads. *)
Module Ping.
Record t : Type := mk {
  bike_id : string;
  provider_id : string;
  lat : R;
  lon : R;
  timestamp : Z
}.
End Ping.

(** A row of the CTE [trip_data] (lines 95-107): a ping with the
    [LAG] columns of its predecessor; [None] is SQL's NULL. *)
Module TripData.
Record t : Type := mk {
  bike_id : string;
  provider_id : string;
  local_time : Z;
  lat : R;
  lon : R;
  prev_time : option Z;
  prev_lat : option R;
  prev_lon : option R
}.
End TripData.

(** A row of the CTE [trip_segments] (lines 108-130). *)
Module Segment.
Record t : Type := mk {
  bike_id : string;
  provider_id : string;
  end_time : Z;
  start_time : Z;
  start_lat : R;
  start_lon : R;
  end_lat : R;
  end_lon : R;
  duration_minutes : R;
  distance_km : R
}.
End Segment.

(** A row of [trip_aggregates] and of the result of the query: the
    eleven columns that are loaded into [all_trips]. *)
Module Trip.
Record t : Type := mk {
  bike_id : string;
  provider_id : string;
  trip_start : Z;
  trip_end : Z;
  start_lat : R;
  start_lon : R;
  end_lat : R;
  end_lon : R;
  total_duration : R;
  total_distance : R;
  segment_count : Z
}.
End Trip.

(** The columns of [all_trips] that this job never writes (lines
    65-72). *)
Module Enrichment.
Record t : Type := mk {
  municipality : option string;
  canton : option string;
  vehicle_type : option string;
  city : option string;
  temperature : option R;
  humidity : option R;
  aqi : option R;
  pm25 : option R
}.
Definition null : t := mk None None None None None None None None.
End Enrichment.

(** A row of the destination table [all_trips] (lines 52-75). *)
Module Row.
Record t : Type := mk {
  trip_id : Z;
  trip : Trip.t;
  enrichment : Enrichment.t
}.
End Row.

(** ** Sorting and aggregates *)

(** [ORDER BY key]: insertion sort; rows with equal keys keep their
    order. *)
Fixpoint insert_by {A : Type} (key : A -> Z) (x : A) (l : list A) : list A :=
  match l with
  | [] => [x]
  | y :: l' => if (key x <=? key y)%Z then x :: l else y :: insert_by key x l'
  end.

Definition sort_by {A : Type} (key : A -> Z) (l : list A) : list A :=
  fold_right (insert_by key) [] l.

(** [MIN], [MAX] and [SUM] over a group whose first row gave [x]. *)
Definition min_Z (x : Z) (l : list Z) : Z := fold_left Z.min l x.
Definition max_Z (x : Z) (l : list Z) : Z := fold_left Z.max l x.
Definition min_R (x : R) (l : list R) : R := fold_left Rmin l x.
Definition max_R (x : R) (l : list R) : R := fold_left Rmax l x.
Definition sum_R (l : list R) : R := fold_right Rplus 0 l.

(** [EXTRACT(EPOCH FROM interval)]: the seconds of an interval. *)
Definition epoch (interval : Z) : R := IZR interval / 1000000.

(** [x BETWEEN lo AND hi]. *)
Definition between (x lo hi : R) : bool := Rleb lo x && Rleb x hi.

Definition group_key : Type := string * string.

Definition group_key_eqb (k1 k2 : group_key) : bool :=
  String.eqb (fst k1) (fst k2) && String.eqb (snd k1) (snd k2).

Definition group_key_dec (k1 k2 : group_key) : {k1 = k2} + {k1 <> k2}.
Proof. decide equality; apply string_dec. Defined.

(** ** The extraction query (lines 94-164) *)

Section ExtractQuery.

(** [t AT TIME ZONE 'UTC' AT TIME ZONE 'Europe/Zurich']: the wall
    clock of Zurich at the UTC timestamp [t].  The time zone rules
    are the database's; they are a parameter here. *)
Variable zurich : Z -> Z.

(** [WHERE timestamp >= %s::timestamp AND timestamp < %s::timestamp]. *)
Definition in_window (start_date end_date : Z) (p : Ping.t) : bool :=
  ((start_date <=? Ping.timestamp p) && (Ping.timestamp p <? end_date))%Z.

(** The row of [trip_data] for [p], whose predecessor in its
    partition is [prev]. *)
Definition lag_row (prev : option Ping.t) (p : Ping.t) : TripData.t :=
  {| TripData.bike_id := Ping.bike_id p;
     TripData.provider_id := Ping.provider_id p;
     TripData.local_time := zurich (Ping.timestamp p);
     TripData.lat := Ping.lat p;
     TripData.lon := Ping.lon p;
     TripData.prev_time := option_map (fun q => zurich (Ping.timestamp q)) prev;
     TripData.prev_lat := option_map Ping.lat prev;
     TripData.prev_lon := option_map Ping.lon prev |}.

(** [LAG(...) OVER (... ORDER BY timestamp)] along one partition. *)
Fixpoint lag_rows (prev : option Ping.t) (partition : list Ping.t)
  : list TripData.t :=
  match partition with
  | [] => []
  | p :: rest => lag_row prev p :: lag_rows (Some p) rest
  end.

(** [PARTITION BY bike_id ORDER BY timestamp]; the primary key of
    [bike_status] leaves no two rows of a vehicle with one timestamp. *)
Definition partition_of (bike : string) (rows : list Ping.t) : list Ping.t :=
  sort_by Ping.timestamp
    (filter (fun p => String.eqb (Ping.bike_id p) bike) rows).

Definition trip_data (start_date end_date : Z) (bike_status : list Ping.t)
  : list TripData.t :=
  let rows := filter (in_window start_date end_date) bike_status in
  flat_map (fun bike => lag_rows None (partition_of bike rows))
           (nodup string_dec (map Ping.bike_id rows)).

(** The WHERE clause of [trip_segments] (lines 127-129); a comparison
    with NULL is not true. *)
Definition in_trip (r : TripData.t) : bool :=
  match TripData.prev_time r, TripData.prev_lat r, TripData.prev_lon r with
  | Some prev_time, Some prev_lat, Some prev_lon =>
      between (epoch (TripData.local_time r - prev_time)) 60 3600
      && (negb (Reqb prev_lat (TripData.lat r))
          || negb (Reqb prev_lon (TripData.lon r)))
  | _, _, _ => false
  end.

(** The SELECT list of [trip_segments] (lines 110-125). *)
Definition segment_select (r : TripData.t) : option Segment.t :=
  match TripData.prev_time r, TripData.prev_lat r, TripData.prev_lon r with
  | Some prev_time, Some prev_lat, Some prev_lon =>
      Some {| Segment.bike_id := TripData.bike_id r;
              Segment.provider_id := TripData.provider_id r;
              Segment.end_time := TripData.local_time r;
              Segment.start_time := prev_time;
              Segment.start_lat := prev_lat;
              Segment.start_lon := prev_lon;
              Segment.end_lat := TripData.lat r;
              Segment.end_lon := TripData.lon r;
              Segment.duration_minutes :=
                epoch (TripData.local_time r - prev_time) / 60;
              Segment.distance_km :=
                Haversine.haversine_km prev_lat prev_lon
                                       (TripData.lat r) (TripData.lon r) |}
  | _, _, _ => None
  end.

Definition trip_segments (rows : list TripData.t) : list Segment.t :=
  flat_map (fun r => if in_trip r
                     then match segment_select r with
                          | Some s => [s]
                          | None => []
                          end
                     else [])
           rows.

Definition segment_key (s : Segment.t) : group_key :=
  (Segment.bike_id s, Segment.provider_id s).

(** The rows of one group of [GROUP BY bike_id, provider_id]. *)
Definition group_of (k : group_key) (segments : list Segment.t)
  : list Segment.t :=
  filter (fun s => group_key_eqb (segment_key s) k) segments.

(** The SELECT list of [trip_aggregates] (lines 133-143) over the
    group [s :: rest]. *)
Definition aggregate (s : Segment.t) (rest : list Segment.t) : Trip.t :=
  {| Trip.bike_id := Segment.bike_id s;
     Trip.provider_id := Segment.provider_id s;
     Trip.trip_start := min_Z (Segment.start_time s) (map Segment.start_time rest);
     Trip.trip_end := max_Z (Segment.end_time s) (map Segment.end_time rest);
     Trip.start_lat := min_R (Segment.start_lat s) (map Segment.start_lat rest);
     Trip.start_lon := min_R (Segment.start_lon s) (map Segment.start_lon rest);
     Trip.end_lat := max_R (Segment.end_lat s) (map Segment.end_lat rest);
     Trip.end_lon := max_R (Segment.end_lon s) (map Segment.end_lon rest);
     Trip.total_duration := sum_R (map Segment.duration_minutes (s :: rest));
     Trip.total_distance := sum_R (map Segment.distance_km (s :: rest));
     Trip.segment_count := Z.of_nat (List.length (s :: rest)) |}.

Definition trip_aggregates (segments : list Segment.t) : list Trip.t :=
  flat_map (fun k => match group_of k segments with
                     | [] => []
                     | s :: rest => [aggregate s rest]
                     end)
           (nodup group_key_dec (map segment_key segments)).

(** The WHERE clause of the final SELECT (lines 160-162). *)
Definition accepted (t : Trip.t) : bool :=
  Rleb 1 (Trip.total_duration t) && Rleb (Trip.total_duration t) 60
  && Rltb 0 (Trip.total_distance t)
  && (2 <=? Trip.segment_count t)%Z.

(** The candidates of a window: the rows of [trip_aggregates]. *)
Definition trip_candidates (start_date end_date : Z) (bike_status : list Ping.t)
  : list Trip.t :=
  trip_aggregates (trip_segments (trip_data start_date end_date bike_status)).

Definition extract_query (start_date end_date : Z) (bike_status : list Ping.t)
  : list Trip.t :=
  sort_by Trip.trip_start
    (filter accepted (trip_candidates start_date end_date bike_status)).

End ExtractQuery.

(** ** The load statement (lines 180-197) *)

(** [ON CONFLICT (bike_id, trip_start)]: the row [r] of [all_trips]
    has the key of the proposed row [t]. *)
Definition conflict (t : Trip.t) (r : Row.t) : bool :=
  String.eqb (Trip.bike_id (Row.trip r)) (Trip.bike_id t)
  && (Trip.trip_start (Row.trip r) =? Trip.trip_start t)%Z.

(** [DO UPDATE SET provider_id = EXCLUDED.provider_id, ...]: nine
    columns are assigned; [trip_id], [bike_id], [trip_start] and the
    enrichment columns keep their values. *)
Definition do_update (excluded : Trip.t) (r : Row.t) : Row.t :=
  {| Row.trip_id := Row.trip_id r;
     Row.trip :=
       {| Trip.bike_id := Trip.bike_id (Row.trip r);
          Trip.provider_id := Trip.provider_id excluded;
          Trip.trip_start := Trip.trip_start (Row.trip r);
          Trip.trip_end := Trip.trip_end excluded;
          Trip.start_lat := Trip.start_lat excluded;
          Trip.start_lon := Trip.start_lon excluded;
          Trip.end_lat := Trip.end_lat excluded;
          Trip.end_lon := Trip.end_lon excluded;
          Trip.total_duration := Trip.total_duration excluded;
          Trip.total_distance := Trip.total_distance excluded;
          Trip.segment_count := Trip.segment_count excluded |};
     Row.enrichment := Row.enrichment r |}.

(** The row that [INSERT] adds: [trip_id] from the sequence, the
    columns that are not listed NULL. *)
Definition inserted (trip_id : Z) (t : Trip.t) : Row.t :=
  {| Row.trip_id := trip_id; Row.trip := t; Row.enrichment := Enrichment.null |}.

(** One proposed row: update the rows in conflict, or insert. *)
Definition upsert (rows : list Row.t) (trip_id : Z) (t : Trip.t) : list Row.t :=
  if existsb (conflict t) rows
  then map (fun r => if conflict t r then do_update t r else r) rows
  else rows ++ [inserted trip_id t].

(** An exception, with its message [str(e)]. *)
Inductive outcome (A : Type) : Type :=
| Return (a : A)
| Raise (e : string).
Arguments Return {A} a.
Arguments Raise {A} e.

Definition arbiter_key (t : Trip.t) : string * Z :=
  (Trip.bike_id t, Trip.trip_start t).

Definition arbiter_key_eqb (k1 k2 : string * Z) : bool :=
  String.eqb (fst k1) (fst k2) && (snd k1 =? snd k2)%Z.

Definition cardinality_violation : string :=
  "ON CONFLICT DO UPDATE command cannot affect row a second time".

(** One [INSERT ... VALUES page ON CONFLICT ... DO UPDATE] statement on
    the rows [rows], the sequence standing at [seq].  Every proposed
    row draws its [trip_id] default from the sequence; a second
    proposed row with the key of an earlier one of the same statement
    is an error.  The sequence keeps what was drawn. *)
Fixpoint insert_on_conflict (rows : list Row.t) (seq : Z)
         (affected : list (string * Z)) (page : list Trip.t)
  : Z * outcome (list Row.t) :=
  match page with
  | [] => (seq, Return rows)
  | t :: page' =>
      let trip_id := (seq + 1)%Z in
      if existsb (arbiter_key_eqb (arbiter_key t)) affected
      then (trip_id, Raise cardinality_violation)
      else insert_on_conflict (upsert rows trip_id t) trip_id
                              (arbiter_key t :: affected) page'
  end.

(** [psycopg2.extras.execute_values] cuts its rows into pages of
    [page_size] (100 when not given, as here) and sends one statement
    per page. *)
Fixpoint paginate {A : Type} (page_size : nat) (page : list A) (room : nat)
         (seq : list A) : list (list A) :=
  match seq with
  | [] => match page with [] => [] | _ :: _ => [rev page] end
  | x :: seq' =>
      match room with
      | O => rev page :: paginate page_size [x] (page_size - 1) seq'
      | S room' => paginate page_size (x :: page) room' seq'
      end
  end.

Definition pages {A : Type} (seq : list A) : list (list A) :=
  paginate 100 [] 100 seq.

(** ** The job: connections, transactions and exceptions *)

(** The two databases.  [dest_txn] is what the open transaction of
    [dest_conn] sees: its statements write there, [commit] makes it
    the table, and closing the connection discards it.  The sequence
    is not transactional. *)
Record world : Type := mk_world {
  bike_status : list Ping.t;
  all_trips : list Row.t;
  all_trips_trip_id_seq : Z;
  dest_txn : list Row.t
}.

(** What the environment does to the database calls of one run:
    [Some e] where a call raises the exception of message [e]. *)
Record faults : Type := mk_faults {
  connect_source : option string;
  connect_dest : option string;
  create_table_execute : option string;
  create_table_commit : option string;
  extract_execute : option string;
  insert_execute : nat -> option string;
  load_commit : option string
}.

(** The result of [lambda_handler]. *)
Record response : Type := mk_response {
  statusCode : Z;
  body : string
}.

Definition M (A : Type) : Type := world -> world * outcome A.

Definition ret {A : Type} (a : A) : M A := fun w => (w, Return a).

Definition bind {A B : Type} (m : M A) (k : A -> M B) : M B :=
  fun w => match m w with
           | (w', Return a) => k a w'
           | (w', Raise e) => (w', Raise e)
           end.

Notation "x <- m ;; k" := (bind m (fun x => k))
  (at level 61, m at next level, right associativity).
Notation "m ;;; k" := (bind m (fun _ => k))
  (at level 61, right associativity).

(** [try: body finally: cleanup]. *)
Definition try_finally {A : Type} (body : M A) (cleanup : world -> world) : M A :=
  fun w => let (w', r) := body w in (cleanup w', r).

(** A database call that the environment may fail. *)
Definition call (fault : option string) (effect : world -> world) : M unit :=
  fun w => match fault with
           | Some e => (w, Raise e)
           | None => (effect w, Return tt)
           end.

(** A new transaction, and one rolled back, see the table. *)
Definition reset_txn (w : world) : world :=
  mk_world (bike_status w) (all_trips w) (all_trips_trip_id_seq w) (all_trips w).

Definition commit_txn (w : world) : world :=
  mk_world (bike_status w) (dest_txn w) (all_trips_trip_id_seq w) (dest_txn w).

(** [database_connection] (lines 35-47): connect, run the body, and
    close the connection whatever happened; the [except] clause logs
    and raises the exception again. *)
Definition database_connection {A : Type} (connect : option string)
           (opened closed : world -> world) (body : M A) : M A :=
  call connect opened ;;; try_finally body closed.

(** [create_destination_table] (lines 49-89): the statements create
    what does not exist and leave the rows alone. *)
Definition create_destination_table (f : faults) : M unit :=
  call (create_table_execute f) (fun w => w) ;;;
  call (create_table_commit f) commit_txn.

(** One page of [execute_values]. *)
Definition insert_statement (f : faults) (page_no : nat) (page : list Trip.t)
  : M unit :=
  fun w =>
    match insert_execute f page_no with
    | Some e => (w, Raise e)
    | None =>
        match insert_on_conflict (dest_txn w) (all_trips_trip_id_seq w) [] page with
        | (seq', Return rows') =>
            (mk_world (bike_status w) (all_trips w) seq' rows', Return tt)
        | (seq', Raise e) =>
            (mk_world (bike_status w) (all_trips w) seq' (dest_txn w), Raise e)
        end
    end.

Fixpoint execute_values (f : faults) (page_no : nat) (ps : list (list Trip.t))
  : M unit :=
  match ps with
  | [] => ret tt
  | page :: ps' =>
      insert_statement f page_no page ;;; execute_values f (S page_no) ps'
  end.

Definition day : Z := 86400 * 1000000.

(** The two results of [lambda_handler] (lines 235-238 and 242-245). *)
Definition success : response :=
  mk_response 200 "Data warehouse update completed successfully".

Definition failure (e : string) : response :=
  mk_response 500 (String.append "Error: " e).

Section Job.

Variable zurich : Z -> Z.

(** [zurich_tz.localize(t)]: the instant of the clock reading [t]
    taken as Zurich time. *)
Variable localize : Z -> Z.

(** [%s::timestamp]: the timestamp the database makes of an instant
    in the time zone of its session. *)
Variable cast_timestamp : Z -> Z.

(** [source_cursor.execute(extract_query, ...); fetchall()]. *)
Definition fetch_records (f : faults) (start_date end_date : Z)
  : M (list Trip.t) :=
  call (extract_execute f) (fun w => w) ;;;
  fun w => (w, Return (extract_query zurich (cast_timestamp start_date)
                                     (cast_timestamp end_date) (bike_status w))).

(** [extract_and_load_data] (lines 91-213); its [except] clause logs
    and raises the exception again. *)
Definition extract_and_load_data (f : faults) (start_date end_date : Z)
  : M unit :=
  records <- fetch_records f start_date end_date ;;
  match records with
  | [] => ret tt
  | _ :: _ =>
      execute_values f 0 (pages records) ;;;
      call (load_commit f) commit_txn
  end.

(** The [try] block of [lambda_handler] (lines 217-233), [now] being
    [datetime.now()]. *)
Definition handler_body (f : faults) (now : Z) : M unit :=
  let end_date := localize now in
  let start_date := (end_date - day)%Z in
  database_connection (connect_source f) (fun w => w) (fun w => w)
    (database_connection (connect_dest f) reset_txn reset_txn
       (create_destination_table f ;;;
        extract_and_load_data f start_date end_date)).

(** [lambda_handler] (lines 215-245). *)
Definition lambda_handler (f : faults) (now : Z) (w : world)
  : world * response :=
  match handler_body f now w with
  | (w', Return _) => (w', success)
  | (w', Raise e) => (w', failure e)
  end.

End Job.

(** ** Statements of the specification *)


Definition trip_key (t : Trip.t) : group_key :=
  (Trip.bike_id t, Trip.provider_id t).

(** The number of rows of [rows] with the key [(bike_id, trip_start)]
    of [t]. *)
Definition rows_with_key (t : Trip.t) (rows : list Row.t) : nat :=
  List.length (filter (conflict t) rows).

(** A run of pairs: each of positive duration on the Zurich clock, each
    starting at the ping where the one before it ended. *)
Fixpoint consecutive (s : Segment.t) (rest : list Segment.t) : Prop :=
  (Segment.start_time s < Segment.end_time s)%Z /\
  match rest with
  | [] => True
  | r :: rest' => Segment.start_time r = Segment.end_time s /\ consecutive r rest'
  end.

(** The columns of a row of [all_trips] that no statement of the job
    assigns once the row is there. *)
Definition stable_columns (r : Row.t) : Z * (string * Z) * Enrichment.t :=
  (Row.trip_id r, arbiter_key (Row.trip r), Row.enrichment r).

(** A row after the updates of the trips of [batch] that have its key,
    one after the other. *)
Definition settle (batch : list Trip.t) (r : Row.t) : Row.t :=
  fold_left (fun x t => if conflict t x then do_update t x else x) batch r.

(** The exception [e] is one that a database call of the run raised. *)
Definition raised_by (f : faults) (e : string) : Prop :=
  connect_source f = Some e \/ connect_dest f = Some e \/
  create_table_execute f = Some e \/ create_table_commit f = Some e \/
  extract_execute f = Some e \/ (exists page_no, insert_execute f page_no = Some e) \/
  e = cardinality_violation \/ load_commit f = Some e.

(** Following the spec's words (section 4.2, step 5): the ordered
    pairs of one vehicle cut into maximal runs of consecutive in-trip
    pairs; a pair that is not in-trip ends the run. *)
Fixpoint spec_maximal_runs (run : list TripData.t) (pairs : list TripData.t)
  : list (list TripData.t) :=
  match pairs with
  | [] => match run with [] => [] | _ :: _ => [rev run] end
  | r :: pairs' =>
      if in_trip r then spec_maximal_runs (r :: run) pairs'
      else match run with
           | [] => spec_maximal_runs [] pairs'
           | _ :: _ => rev run :: spec_maximal_runs [] pairs'
           end
  end.

(** Following the spec's words: the trip candidates of a window, one
    per maximal run of each vehicle. *)
Definition spec_trip_candidates (zurich : Z -> Z) (start_date end_date : Z)
           (bike_status : list Ping.t) : list (list TripData.t) :=
  let rows := filter (in_window start_date end_date) bike_status in
  flat_map (fun bike =>
              spec_maximal_runs []
                (lag_rows zurich None (partition_of bike rows)))
           (nodup string_dec (map Ping.bike_id rows)).

(** [elapsed_minutes] of a pair as the spec defines it (section 3):
    the time from the instant of the earlier ping to the instant of
    the later one, in minutes. *)
Definition spec_elapsed_minutes (earlier later : Ping.t) : R :=
  epoch (Ping.timestamp later - Ping.timestamp earlier) / 60.

(** The in-trip predicate as the spec states it (section 4.2). *)
Definition spec_in_trip (earlier later : Ping.t) : Prop :=
  1 <= spec_elapsed_minutes earlier later <= 60 /\
  (Ping.lat earlier <> Ping.lat later \/ Ping.lon earlier <> Ping.lon later).

(** ** Scenarios *)

(** Zurich's clock in winter (CET) is one hour ahead of UTC. *)
Definition cet (t : Z) : Z := t + 3600 * 1000000.

(** A clock reading taken as CET, as an instant. *)
Definition localize_cet (t : Z) : Z := t - 3600 * 1000000.

(** The cast of an instant to a timestamp in a session on UTC. *)
Definition session_utc (t : Z) : Z := t.

(** Zurich's clock around 2024-03-31 01:00:00 UTC, when it goes from
    one hour ahead of UTC to two. *)
Definition march31 : Z := 1711846800 * 1000000.
Definition zurich_spring (t : Z) : Z :=
  if (t <? march31)%Z then t + 3600 * 1000000 else t + 7200 * 1000000.

(** Zurich's clock around 2024-10-27 01:00:00 UTC, when it goes back
    from two hours ahead of UTC to one. *)
Definition october27 : Z := 1729990800 * 1000000.
Definition zurich_autumn (t : Z) : Z :=
  if (t <? october27)%Z then t + 7200 * 1000000 else t + 3600 * 1000000.

(** Two pings of a vehicle 30 minutes apart, at 00:50 and 01:20 UTC
    on 2024-03-31, and two pings 90 minutes apart, at 00:00 and 01:30
    UTC on 2024-10-27; the vehicle has moved between them. *)
Definition spring_earlier : Ping.t :=
  Ping.mk "V1" "P1" 47.00 8 (march31 - 10 * 60 * 1000000).
Definition spring_later : Ping.t :=
  Ping.mk "V1" "P1" 47.01 8 (march31 + 20 * 60 * 1000000).
Definition autumn_earlier : Ping.t :=
  Ping.mk "V1" "P1" 47.00 8 (october27 - 60 * 60 * 1000000).
Definition autumn_later : Ping.t :=
  Ping.mk "V1" "P1" 47.01 8 (october27 + 30 * 60 * 1000000).

(** 2024-01-15 08:00:00 UTC, and the timestamp [n] minutes later. *)
Definition jan15 : Z := 1705305600 * 1000000.
Definition at_min (n : Z) : Z := jan15 + n * 60 * 1000000.

(** A window of 24 hours that starts an hour before [jan15]. *)
Definition window_start : Z := at_min (-60).
Definition window_end : Z := at_min 1380.

(** One vehicle with two runs of two in-trip pairs each, 100 minutes
    between the runs. *)
Definition two_runs : list Ping.t :=
  [ Ping.mk "V1" "P1" 47.00 8 (at_min 0);
    Ping.mk "V1" "P1" 47.01 8 (at_min 10);
    Ping.mk "V1" "P1" 47.02 8 (at_min 20);
    Ping.mk "V1" "P1" 47.03 8 (at_min 120);
    Ping.mk "V1" "P1" 47.04 8 (at_min 130);
    Ping.mk "V1" "P1" 47.05 8 (at_min 140) ].

(** One vehicle that rides south: three pings, two in-trip pairs. *)
Definition southbound : list Ping.t :=
  [ Ping.mk "V1" "P1" 47.03 8 (at_min 0);
    Ping.mk "V1" "P1" 47.02 8 (at_min 10);
    Ping.mk "V1" "P1" 47.01 8 (at_min 20) ].

(** The first scenario of the spec (section 8): vehicle V1 at 0, 10,
    25 and 40 minutes, riding north. *)
Definition v1_pings : list Ping.t :=
  [ Ping.mk "V1" "P1" 47.0 8 (at_min 0);
    Ping.mk "V1" "P1" 47.01 8 (at_min 10);
    Ping.mk "V1" "P1" 47.02 8 (at_min 25);
    Ping.mk "V1" "P1" 47.03 8 (at_min 40) ].

(** The second scenario of the spec: vehicle V2, two pings 90 minutes
    apart. *)
Definition v2_pings : list Ping.t :=
  [ Ping.mk "V2" "P1" 47.0 8 (at_min 0);
    Ping.mk "V2" "P1" 47.1 8.1 (at_min 90) ].

Definition no_faults : faults :=
  mk_faults None None None None None (fun _ => None) None.

(** The environment in which the first [INSERT] statement fails. *)
Definition insert_fails (e : string) : faults :=
  mk_faults None None None None None
            (fun page_no => match page_no with O => Some e | S _ => None end)
            None.

(** The environment in which the extraction query fails. *)
Definition extract_fails (e : string) : faults :=
  mk_faults None None None None (Some e) (fun _ => None) None.

Definition connection_lost : string :=
  "server closed the connection unexpectedly".

(** [datetime.now()] at the end of the window above, for a run whose
    clock reads CET and whose session is on UTC. *)
Definition now_jan16 : Z := (window_end + 3600 * 1000000)%Z.

(** A destination with one trip of another day. *)
Definition old_row : Row.t :=
  Row.mk 7
    (Trip.mk "V9" "P1" 1705000000000000 1705001200000000
             47.2 8.2 47.3 8.3 20 2.5 2)
    Enrichment.null.

Definition world_of (pings : list Ping.t) : world :=
  mk_world pings [old_row] 7 [].

(** The trip of [v1_pings]. *)
Definition v1_trip : Trip.t :=
  Trip.mk "V1" "P1" (cet (at_min 0)) (cet (at_min 40)) 47.0 8 47.03 8 40
    (Haversine.haversine_km 47.0 8 47.01 8 +
     (Haversine.haversine_km 47.01 8 47.02 8 +
      (Haversine.haversine_km 47.02 8 47.03 8 + 0))) 3.

(** The destination after a run that loaded [v1_trip]. *)
Definition world_with_v1 : world :=
  mk_world v1_pings [old_row; inserted 8 v1_trip] 8 [old_row; inserted 8 v1_trip].


(** * The other jobs

    [weather_lambda.py], [bike_lambda.py] and [air_lambda.py] fill the
    tables around [all_trips].  What they read from the web is a
    parameter (the answers to their requests), and so is what the
    database does to their calls; the exceptions of Python's own
    operations are named by their class. *)

(** ** Parsed JSON, and the operations the jobs apply to it *)

Module Json.

(** What [response.json()] returns; [Null] is Python's [None], an
    [Object] is a [dict], given by its items. *)
#[warnings="-register-all"]
Inductive t : Type :=
| Null
| Bool (b : bool)
| Number (x : R)
| String (s : string)
| Array (l : list t)
| Object (d : list (string * t)).

Fixpoint lookup (d : list (string * t)) (k : string) : option t :=
  match d with
  | [] => None
  | (k', v) :: d' => if String.eqb k' k then Some v else lookup d' k
  end.

(** [bool(v)], as [if v] and [if not v] test it. *)
Definition truthy (v : t) : bool :=
  match v with
  | Null => false
  | Bool b => b
  | Number x => negb (Reqb x 0)
  | String s => negb (String.eqb s "")
  | Array l => match l with [] => false | _ :: _ => true end
  | Object d => match d with [] => false | _ :: _ => true end
  end.

(** [v.get(k, default)]: only a [dict] has the method. *)
Definition get (v : t) (k : string) (default : t) : outcome t :=
  match v with
  | Object d => Return (match lookup d k with Some x => x | None => default end)
  | _ => Raise "AttributeError"
  end.

(** [v[k]] for a string [k]. *)
Definition getitem (v : t) (k : string) : outcome t :=
  match v with
  | Object d => match lookup d k with Some x => Return x | None => Raise "KeyError" end
  | _ => Raise "TypeError"
  end.

(** [v[0]]. *)
Definition item0 (v : t) : outcome t :=
  match v with
  | Array (x :: _) => Return x
  | Array [] => Raise "IndexError"
  | String (String.String c _) => Return (String (String.String c ""))
  | String EmptyString => Raise "IndexError"
  | Object _ => Raise "KeyError"
  | _ => Raise "TypeError"
  end.

(** [for x in v]: the elements of a list, the keys of a [dict], the
    characters of a string. *)
Fixpoint characters (s : string) : list t :=
  match s with
  | EmptyString => []
  | String.String c s' => String (String.String c "") :: characters s'
  end.

Definition iterate (v : t) : outcome (list t) :=
  match v with
  | Array l => Return l
  | Object d => Return (map (fun kv => String (fst kv)) d)
  | String s => Return (characters s)
  | _ => Raise "TypeError"
  end.

End Json.

(** The outcome of [requests.get(url)], [raise_for_status()] and
    [json()] together. *)
Inductive http : Type :=
| Response (j : Json.t)
| RequestException (e : string)
| OtherException (e : string).

Definition obind {A B : Type} (m : outcome A) (k : A -> outcome B) : outcome B :=
  match m with
  | Return a => k a
  | Raise e => Raise e
  end.

Notation "x <-- m ;; k" := (obind m (fun x => k))
  (at level 61, m at next level, right associativity).

(** [t.hour] and [t.minute] of a [datetime]. *)
Definition hour (t : Z) : Z := ((t / 3600000000) mod 24)%Z.
Definition minute (t : Z) : Z := ((t / 60000000) mod 60)%Z.

(** ** [weather_lambda.py] *)

Module Weather.

(** [CITIES] (lines 14-21), in the order of the dictionary. *)
Definition CITIES : list (string * (string * string)) :=
  [ ("Zurich", ("47.3769", "8.5417"));
    ("Lucerne", ("47.0502", "8.3093"));
    ("Geneva", ("46.2044", "6.1432"));
    ("Basel", ("47.5596", "7.5886"));
    ("Bern", ("46.9480", "7.4474"));
    ("Lausanne", ("46.5197", "6.6323")) ]%string.

Definition API_KEY : string := "bf2154a741c8ecbd57ff922c25bc92c8".

(** A row of [weather_data] (lines 38-46), with the values that were
    passed for its columns. *)
Record row : Type := mk_row {
  id : Z;
  city : string;
  aqi : Json.t;
  temperature : Json.t;
  humidity : Json.t;
  pm25 : Json.t;
  timestamp : Z
}.

(** The connection is in autocommit: a row is in the table as soon as
    its statement has run. *)
Record world : Type := mk_world {
  weather_data : list row;
  weather_data_id_seq : Z
}.

Record env : Type := mk_env {
  now_start : Z;                 (* [datetime.now()], line 109 *)
  now_insert : string -> Z;      (* line 95, for the city *)
  now_end : Z;                   (* line 157 *)
  connect : option string;       (* lines 121-123 *)
  create_table : option string;  (* line 37 *)
  requests_get : string -> http; (* by url *)
  insert : string -> option string (* line 80, for the city *)
}.

Inductive body : Type :=
| OutsideWindow (current_time : Z)
| Completed (successful_cities failed_cities : list string) (timestamp : Z)
| Failed (error : string) (successful_cities failed_cities : list string).

(** The result; [body] is the dictionary given to [json.dumps]. *)
Record response : Type := mk_response {
  statusCode : Z;
  response_body : body
}.

Definition weather_url (lat lon : string) : string :=
  String.concat ""
    [ "http://api.openweathermap.org/data/2.5/weather?lat="; lat; "&lon="; lon;
      "&units=metric&appid="; API_KEY ]%string.

Definition air_url (lat lon : string) : string :=
  String.concat ""
    [ "http://api.openweathermap.org/data/2.5/air_pollution?lat="; lat;
      "&lon="; lon; "&appid="; API_KEY ]%string.

(** [fetch_current_weather] and [fetch_air_quality] (lines 55-75): a
    [RequestException] is logged and [None] returned. *)
Definition fetch (e : env) (url : string) : outcome Json.t :=
  match requests_get e url with
  | Response j => Return j
  | RequestException _ => Return Json.Null
  | OtherException x => Raise x
  end.

Definition fetch_current_weather (e : env) (lat lon : string) : outcome Json.t :=
  fetch e (weather_url lat lon).

Definition fetch_air_quality (e : env) (lat lon : string) : outcome Json.t :=
  fetch e (air_url lat lon).

(** [air_quality_data.get('list', [{}])[0].get(section, {}).get(key)
    if air_quality_data else None] (lines 91 and 94). *)
Definition air_value (air : Json.t) (section key : string) : outcome Json.t :=
  if Json.truthy air
  then l <-- Json.get air "list" (Json.Array [Json.Object []]) ;;
       x <-- Json.item0 l ;;
       m <-- Json.get x section (Json.Object []) ;;
       Json.get m key Json.Null
  else Return Json.Null.

(** [weather_data.get('main', {}).get(key)] (lines 92-93). *)
Definition main_value (weather : Json.t) (key : string) : outcome Json.t :=
  m <-- Json.get weather "main" (Json.Object []) ;;
  Json.get m key Json.Null.

(** The parameters of the INSERT (lines 89-96), in their order. *)
Definition insert_params (e : env) (c : string) (weather air : Json.t)
  : outcome (Z -> row) :=
  a <-- air_value air "main" "aqi" ;;
  t <-- main_value weather "temp" ;;
  h <-- main_value weather "humidity" ;;
  p <-- air_value air "components" "pm2_5" ;;
  Return (fun i => mk_row i c a t h p (now_insert e c)).

(** [insert_weather_data] (lines 77-100). *)
Definition insert_weather_data (e : env) (w : world) (c : string)
           (weather air : Json.t) : world * outcome unit :=
  match insert_params e c weather air with
  | Raise x => (w, Raise x)
  | Return r =>
      match insert e c with
      | Some x => (w, Raise x)
      | None =>
          let i := (weather_data_id_seq w + 1)%Z in
          (mk_world (weather_data w ++ [r i]) i, Return tt)
      end
  end.

(** The body of the loop (lines 130-149) for one city: the table
    after it, and whether the city went to [successful_cities]. *)
Definition process_city (e : env) (w : world) (item : string * (string * string))
  : world * bool :=
  let '(c, (lat, lon)) := item in
  match fetch_current_weather e lat lon with
  | Raise _ => (w, false)
  | Return weather =>
      if negb (Json.truthy weather) then (w, false)
      else match fetch_air_quality e lat lon with
           | Raise _ => (w, false)
           | Return air =>
               match insert_weather_data e w c weather air with
               | (w', Return _) => (w', true)
               | (w', Raise _) => (w', false)
               end
           end
  end.

(** The loop (line 129), with the two lists it appends to. *)
Fixpoint process_cities (e : env) (w : world) (successful failed : list string)
         (items : list (string * (string * string)))
  : world * (list string * list string) :=
  match items with
  | [] => (w, (successful, failed))
  | item :: items' =>
      match process_city e w item with
      | (w', true) => process_cities e w' (successful ++ [fst item]) failed items'
      | (w', false) => process_cities e w' successful (failed ++ [fst item]) items'
      end
  end.

(** The row a city adds, up to its [id], when all goes well for it:
    its weather is fetched and not empty, the fetch of its air
    quality raises nothing, the parameters can be read and the
    INSERT runs. *)
Definition city_row (e : env) (item : string * (string * string))
  : option (Z -> row) :=
  let '(c, (lat, lon)) := item in
  match fetch_current_weather e lat lon with
  | Raise _ => None
  | Return weather =>
      if negb (Json.truthy weather) then None
      else match fetch_air_quality e lat lon with
           | Raise _ => None
           | Return air =>
               match insert_params e c weather air, insert e c with
               | Return r, None => Some r
               | _, _ => None
               end
           end
  end.

Definition succeeds (e : env) (item : string * (string * string)) : bool :=
  match city_row e item with Some _ => true | None => false end.

(** The rows of the cities that succeed, with the [id]s that follow
    [seq]. *)
Fixpoint added_rows (e : env) (seq : Z) (items : list (string * (string * string)))
  : list row :=
  match items with
  | [] => []
  | item :: items' =>
      match city_row e item with
      | Some r => r (seq + 1)%Z :: added_rows e (seq + 1) items'
      | None => added_rows e seq items'
      end
  end.

(** The test of line 110, negated. *)
Definition in_execution_window (t : Z) : bool :=
  negb (negb (hour t =? 11)%Z || (minute t <? 45)%Z || (55 <? minute t)%Z).

(** [lambda_handler] (lines 102-177). *)
Definition lambda_handler (e : env) (w : world) : world * response :=
  if negb (in_execution_window (now_start e))
  then (w, mk_response 200 (OutsideWindow (now_start e)))
  else match connect e with
       | Some x => (w, mk_response 500 (Failed x [] []))
       | None =>
           match create_table e with
           | Some x => (w, mk_response 500 (Failed x [] []))
           | None =>
               let '(w', (successful, failed)) := process_cities e w [] [] CITIES in
               (w', mk_response 200 (Completed successful failed (now_end e)))
           end
       end.

End Weather.

(** ** [bike_lambda.py] *)

Module Bike.

Definition API_URL : string :=
  "https://gbfs.prod.sharedmobility.ch/free_bike_status.json".

(** A row of [bike_status] (lines 38-47), with the values that were
    passed for its columns. *)
Record row : Type := mk_row {
  bike_id : Json.t;
  provider_id : Json.t;
  lat : Json.t;
  lon : Json.t;
  is_reserved : Json.t;
  is_disabled : Json.t;
  timestamp : Z
}.

(** What the run meets outside the handler: for each call that can
    fail, the exception it raises, if it does.  Whether an INSERT
    fails (a primary key that is there already, a connection that is
    lost) is the database's answer, given per page. *)
Record env : Type := mk_env {
  connect : option string;           (* line 28 *)
  create_execute : option string;    (* line 37 *)
  create_commit : option string;     (* line 49 *)
  requests_get : string -> http;     (* lines 54-58 *)
  now : Z;                           (* line 62 *)
  insert_execute : nat -> option string; (* line 75, by page *)
  commit : option string;            (* line 82 *)
  get_remaining_time_in_millis : option string (* line 106, on [context] *)
}.

(** One tuple of [bike_data] (lines 63-71); a key that is missing
    raises. *)
Definition bike_row (current_time : Z) (bike : Json.t) : outcome row :=
  b <-- Json.getitem bike "bike_id" ;;
  p <-- Json.getitem bike "provider_id" ;;
  la <-- Json.getitem bike "lat" ;;
  lo <-- Json.getitem bike "lon" ;;
  r <-- Json.getitem bike "is_reserved" ;;
  d <-- Json.getitem bike "is_disabled" ;;
  Return (mk_row b p la lo r d current_time).

Fixpoint bike_data (current_time : Z) (bikes : list Json.t) : outcome (list row) :=
  match bikes with
  | [] => Return []
  | bike :: bikes' =>
      r <-- bike_row current_time bike ;;
      rs <-- bike_data current_time bikes' ;;
      Return (r :: rs)
  end.

(** [response.json().get('data', {}).get('bikes', [])] (line 58). *)
Definition bikes_of (j : Json.t) : outcome Json.t :=
  d <-- Json.get j "data" (Json.Object []) ;;
  Json.get d "bikes" (Json.Array []).

(** [execute_batch] (line 75): one call of [execute] per page of 100
    tuples, each adding its rows in the transaction. *)
Fixpoint execute_batch (e : env) (page_no : nat) (ps : list (list row))
         (txn : list row) : outcome (list row) :=
  match ps with
  | [] => Return txn
  | page :: ps' =>
      match insert_execute e page_no with
      | Some x => Raise x
      | None => execute_batch e (S page_no) ps' (txn ++ page)
      end
  end.

Definition processed (n : nat) : string :=
  String.concat ""
    [ "Successfully processed "; NilZero.string_of_uint (Nat.to_uint n);
      " bike records" ]%string.

(** [lambda_handler] (lines 12-114) on the table [bike_status]: the
    table after the run, and the result or the exception that leaves
    the handler.  Every [except] clause raises again; what was not
    committed is gone when the connection is closed.  The call on
    [context] (line 106) comes after the commit, outside the [try]. *)
Definition lambda_handler (e : env) (bike_status : list row)
  : list row * outcome response :=
  match connect e with
  | Some x => (bike_status, Raise x)
  | None =>
  match create_execute e with
  | Some x => (bike_status, Raise x)
  | None =>
  match create_commit e with
  | Some x => (bike_status, Raise x)
  | None =>
  match requests_get e API_URL with
  | RequestException x => (bike_status, Raise x)
  | OtherException x => (bike_status, Raise x)
  | Response j =>
  match (b <-- bikes_of j ;; l <-- Json.iterate b ;; bike_data (now e) l) with
  | Raise x => (bike_status, Raise x)
  | Return rows =>
  match execute_batch e 0 (pages rows) bike_status with
  | Raise x => (bike_status, Raise x)
  | Return txn =>
  match commit e with
  | Some x => (bike_status, Raise x)
  | None =>
  match get_remaining_time_in_millis e with
  | Some x => (txn, Raise x)
  | None => (txn, Return (mk_response 200 (processed (List.length rows))))
  end end end end end end end end.

End Bike.

(** ** [air_lambda.py] *)

Module Air.

(** [SWISS_CITIES] (lines 25-32). *)
Definition SWISS_CITIES : list (string * string) :=
  [ ("zurich", "Zurich"); ("lucerne", "Lucerne"); ("geneva", "Geneva");
    ("basel", "Basel"); ("bern", "Bern"); ("lausanne", "Lausanne") ]%string.

(** A tuple of [fetch_city_data], and the row of [air_quality] it
    becomes. *)
Record row : Type := mk_row {
  city : string;
  aqi : Json.t;
  temperature : Json.t;
  humidity : Json.t;
  pm25 : Json.t
}.

(** The requests run in a pool of threads; [completion] is the order
    in which [as_completed] yields them in the run.  The batches of
    the run are numbered from 0.  For each call that can fail, the
    exception it raises, if it does; [rollback] is the call of the
    [except] clause, which on a connection that is lost raises
    itself. *)
Record env : Type := mk_env {
  api_token : option string;          (* line 15 *)
  connect : option string;            (* lines 75-76 *)
  completion : list (string * string);
  requests_get : string -> http;      (* lines 37-42 *)
  executemany : nat -> option string; (* lines 92 and 113 *)
  commit : nat -> option string;      (* lines 98 and 119 *)
  rollback : option string            (* line 141 *)
}.

Inductive body : Type :=
| Recorded (message : string) (cities_processed : list row)
| Error (error : string).

Record response : Type := mk_response {
  statusCode : Z;
  response_body : body
}.

Definition feed_url (e : env) (city_name : string) : string :=
  String.concat ""
    [ "https://api.waqi.info/feed/"; city_name; "/?token=";
      match api_token e with Some t => t | None => "None" end ]%string.

(** [get_air_quality_data] (lines 34-45): every exception is raised
    again. *)
Definition get_air_quality_data (e : env) (city_name : string) : outcome Json.t :=
  match requests_get e (feed_url e city_name) with
  | Response j => Return j
  | RequestException x => Raise x
  | OtherException x => Raise x
  end.

(** [result['iaqi'].get(k, {}).get('v')]. *)
Definition iaqi_value (result : Json.t) (k : string) : outcome Json.t :=
  i <-- Json.getitem result "iaqi" ;;
  m <-- Json.get i k (Json.Object []) ;;
  Json.get m "v" Json.Null.

(** [fetch_city_data] (lines 47-64): [None] on any exception. *)
Definition fetch_city_data (e : env) (item : string * string) : option row :=
  match (data <-- get_air_quality_data e (snd item) ;;
         result <-- Json.getitem data "data" ;;
         a <-- Json.getitem result "aqi" ;;
         t <-- iaqi_value result "t" ;;
         h <-- iaqi_value result "h" ;;
         p <-- iaqi_value result "pm25" ;;
         Return (mk_row (fst item) a t h p)) with
  | Return r => Some r
  | Raise _ => None
  end.

(** The tuples of the requests that gave one, in the order of
    [futures]. *)
Definition fetched (e : env) (futures : list (string * string)) : list row :=
  flat_map (fun item => match fetch_city_data e item with
                        | Some r => [r]
                        | None => []
                        end) futures.

(** [cur.executemany(...); conn.commit()] for batch [k]: the table
    after them. *)
Definition flush (e : env) (k : nat) (table batch : list row) : outcome (list row) :=
  match executemany e k with
  | Some x => Raise x
  | None =>
      match commit e k with
      | Some x => Raise x
      | None => Return (table ++ batch)
      end
  end.

Definition recorded (n : nat) : string :=
  String.concat ""
    [ "Successfully recorded air quality data for ";
      NilZero.string_of_uint (Nat.to_uint n); " cities" ]%string.

(** The loop over the completed requests (lines 85-109) and what
    follows it (lines 112-136): [table] is what is committed, [k] the
    number of batches sent.  The result is the table and what leaves
    the [try] block: the response, or the exception of a batch, whose
    rows are not committed. *)
Fixpoint collect (e : env) (k : nat) (table batch results : list row)
         (futures : list (string * string)) : list row * outcome response :=
  match futures with
  | [] =>
      match batch with
      | [] => (table,
               Return (mk_response 200
                         (Recorded (recorded (List.length results)) results)))
      | _ :: _ =>
          match flush e k table batch with
          | Raise x => (table, Raise x)
          | Return table' =>
              let results' := results ++ batch in
              (table', Return (mk_response 200
                                 (Recorded (recorded (List.length results')) results')))
          end
      end
  | item :: futures' =>
      let batch' := match fetch_city_data e item with
                    | Some r => batch ++ [r]
                    | None => batch
                    end in
      if (2 <=? List.length batch')%nat
      then match flush e k table batch' with
           | Raise x => (table, Raise x)
           | Return table' =>
               collect e (S k) table' [] (results ++ batch') futures'
           end
      else collect e k table batch' results futures'
  end.

(** The [except] clause (lines 138-145) for an exception raised with
    the connection open: [conn.rollback()], then the response; an
    exception of the rollback leaves the handler. *)
Definition rolled_back (e : env) (x : string) : outcome response :=
  match rollback e with
  | Some x' => Raise x'
  | None => Return (mk_response 500 (Error x))
  end.

(** [lambda_handler] (lines 66-151) on the table [air_quality]: the
    table after the run, and the response or the exception that
    leaves the handler.  When the connection fails [conn] is [None]
    and the [except] clause rolls nothing back. *)
Definition lambda_handler (e : env) (air_quality : list row)
  : list row * outcome response :=
  match connect e with
  | Some x => (air_quality, Return (mk_response 500 (Error x)))
  | None =>
      match collect e 0 air_quality [] [] (completion e) with
      | (table, Return r) => (table, Return r)
      | (table, Raise x) => (table, rolled_back e x)
      end
  end.

End Air.

(** A run at 11:50:00 in which the weather of Zurich is answered, its
    air quality is not, and no other request is answered. *)
Definition zurich_weather : Json.t :=
  Json.Object [("main"%string,
                Json.Object [("temp"%string, Json.Number 3.5);
                             ("humidity"%string, Json.Number 80)])].

Definition zurich_only : Weather.env :=
  Weather.mk_env
    (1705319400 * 1000000)
    (fun _ => 1705319401 * 1000000)%Z
    (1705319402 * 1000000)
    None None
    (fun url => if String.eqb url (Weather.weather_url "47.3769" "8.5417")
                then Response zurich_weather
                else RequestException "Read timed out")
    (fun _ => None).

Definition zurich_row : Weather.row :=
  Weather.mk_row 1 "Zurich" Json.Null (Json.Number 3.5) (Json.Number 80)
                 Json.Null (1705319401 * 1000000).

(** A feed of two bikes, the second without its [lat]. *)
Definition bike_a : Json.t :=
  Json.Object [("bike_id", Json.String "a1"); ("provider_id", Json.String "P1");
               ("lat", Json.Number 47.0); ("lon", Json.Number 8);
               ("is_reserved", Json.Bool false); ("is_disabled", Json.Bool false)]%string.

Definition bike_b : Json.t :=
  Json.Object [("bike_id", Json.String "b2"); ("provider_id", Json.String "P1");
               ("lon", Json.Number 8);
               ("is_reserved", Json.Bool false); ("is_disabled", Json.Bool false)]%string.

Definition feed_of (bikes : list Json.t) : Json.t :=
  Json.Object [("data"%string, Json.Object [("bikes"%string, Json.Array bikes)])].

Definition bike_env (answer : http) : Bike.env :=
  Bike.mk_env None None None (fun _ => answer) jan15 (fun _ => None) None None.

(** A run of the air job in which the requests complete in the order
    of [SWISS_CITIES] and only the one for Zurich is answered. *)
Definition zurich_air : Json.t :=
  Json.Object
    [("status", Json.String "ok");
     ("data", Json.Object
                [("aqi", Json.Number 42);
                 ("iaqi", Json.Object
                            [("t", Json.Object [("v", Json.Number 3.5)])])])]%string.

Definition air_env : Air.env :=
  Air.mk_env (Some "token"%string) None Air.SWISS_CITIES
    (fun url => if String.eqb url "https://api.waqi.info/feed/Zurich/?token=token"
                then Response zurich_air
                else RequestException "Read timed out")
    (fun _ => None) (fun _ => None) None.

(** A run of the air job in which no request is answered, and the
    database would refuse every statement. *)
Definition air_offline : Air.env :=
  Air.mk_env None None Air.SWISS_CITIES
    (fun _ => RequestException "Read timed out")
    (fun _ => Some "connection lost"%string) (fun _ => Some "connection lost"%string)
    (Some "connection already closed"%string).

(** * Properties *)

Import Haversine.

(** ** Boolean comparisons of reals *)

Lemma Rleb_true (x y : R) : Rleb x y = true <-> x <= y.
Proof. unfold Rleb. destruct (Rle_dec x y); split; intros; try easy. Qed.

Lemma Rleb_false (x y : R) : Rleb x y = false <-> y < x.
Proof. unfold Rleb. destruct (Rle_dec x y); split; intros; try easy; lra. Qed.

Lemma Rltb_true (x y : R) : Rltb x y = true <-> x < y.
Proof. unfold Rltb. destruct (Rlt_dec x y); split; intros; try easy. Qed.

Lemma Rltb_false (x y : R) : Rltb x y = false <-> y <= x.
Proof. unfold Rltb. destruct (Rlt_dec x y); split; intros; try easy; lra. Qed.

Lemma Reqb_true (x y : R) : Reqb x y = true <-> x = y.
Proof. unfold Reqb. destruct (Req_dec_T x y); split; intros; try easy. Qed.

Lemma Reqb_false (x y : R) : Reqb x y = false <-> x <> y.
Proof. unfold Reqb. destruct (Req_dec_T x y); split; intros; try easy. Qed.

(** Decides the comparisons of real constants left in a goal. *)
Ltac eval_R :=
  repeat match goal with
  | |- context [Rleb ?a ?b] =>
      first [ replace (Rleb a b) with true
                by (symmetry; apply Rleb_true; unfold epoch; lra)
            | replace (Rleb a b) with false
                by (symmetry; apply Rleb_false; unfold epoch; lra) ]
  | |- context [Rltb ?a ?b] =>
      first [ replace (Rltb a b) with true
                by (symmetry; apply Rltb_true; unfold epoch; lra)
            | replace (Rltb a b) with false
                by (symmetry; apply Rltb_false; unfold epoch; lra) ]
  | |- context [Reqb ?a ?b] =>
      first [ replace (Reqb a b) with true by (symmetry; apply Reqb_true; lra)
            | replace (Reqb a b) with false by (symmetry; apply Reqb_false; lra) ]
  end.

(** ** The distance *)

Lemma radians_half_opp (a b : R) :
  radians (a - b) / 2 = - (radians (b - a) / 2).
Proof. unfold radians. lra. Qed.

Lemma power2_sin_opp (x : R) : power2 (sin (- x)) = power2 (sin x).
Proof. unfold power2. rewrite sin_neg. ring. Qed.

Lemma haversine_arg_sym (lat1 lon1 lat2 lon2 : R) :
  haversine_arg lat1 lon1 lat2 lon2 = haversine_arg lat2 lon2 lat1 lon1.
Proof.
  unfold haversine_arg.
  rewrite (radians_half_opp lat2 lat1), (radians_half_opp lon2 lon1).
  rewrite !power2_sin_opp. ring.
Qed.

Lemma haversine_arg_same (lat1 lon1 : R) : haversine_arg lat1 lon1 lat1 lon1 = 0.
Proof.
  unfold haversine_arg, radians, power2.
  replace ((lat1 - lat1) * PI / 180 / 2) with 0 by lra.
  replace ((lon1 - lon1) * PI / 180 / 2) with 0 by lra.
  rewrite sin_0. ring.
Qed.

(** C8: the distance is symmetric in its two points, and a point is at
    distance 0 from itself. *)
Theorem haversine_km_symmetric_zero :
  (forall lat1 lon1 lat2 lon2 : R,
      haversine_km lat1 lon1 lat2 lon2 = haversine_km lat2 lon2 lat1 lon1) /\
  (forall lat1 lon1 : R, haversine_km lat1 lon1 lat1 lon1 = 0).
Proof.
  split; intros; unfold haversine_km.
  - now rewrite haversine_arg_sym.
  - rewrite haversine_arg_same, sqrt_0, asin_0. ring.
Qed.

Lemma power2_sin_range (x : R) : 0 <= power2 (sin x) <= 1.
Proof.
  unfold power2. pose proof (sin2_cos2 x) as H. unfold Rsqr in H.
  pose proof (pow2_ge_0 (sin x)). pose proof (pow2_ge_0 (cos x)).
  simpl in *. lra.
Qed.

Lemma power2_cos_range (x : R) : 0 <= power2 (cos x) <= 1.
Proof.
  unfold power2. pose proof (sin2_cos2 x) as H. unfold Rsqr in H.
  pose proof (pow2_ge_0 (sin x)). pose proof (pow2_ge_0 (cos x)).
  simpl in *. lra.
Qed.

(** The product of the cosines is the gap between two squares. *)
Lemma cos_cos_as_squares (p q : R) :
  cos (2 * p) * cos (2 * q) = power2 (cos (p + q)) - power2 (sin (q - p)).
Proof.
  unfold power2. rewrite !cos_2a, cos_plus, sin_minus. ring.
Qed.

(** Over the reals the argument of [sqrt] is in [0, 1] for all
    coordinates: neither [sqrt] nor [asin] leaves its domain. *)
Lemma haversine_arg_range (prev_lat prev_lon lat lon : R) :
  0 <= haversine_arg prev_lat prev_lon lat lon <= 1.
Proof.
  unfold haversine_arg.
  set (p := radians prev_lat / 2). set (q := radians lat / 2).
  replace (radians (lat - prev_lat) / 2) with (q - p)
    by (unfold p, q, radians; lra).
  replace (radians prev_lat) with (2 * p) by (unfold p; lra).
  replace (radians lat) with (2 * q) by (unfold q; lra).
  rewrite cos_cos_as_squares.
  pose proof (power2_sin_range (q - p)) as HA.
  pose proof (power2_cos_range (p + q)) as HB.
  pose proof (power2_sin_range (radians (lon - prev_lon) / 2)) as HU.
  nra.
Qed.

Lemma sqrt_haversine_arg_range (prev_lat prev_lon lat lon : R) :
  -1 <= sqrt (haversine_arg prev_lat prev_lon lat lon) <= 1.
Proof.
  pose proof (haversine_arg_range prev_lat prev_lon lat lon) as [H0 H1].
  pose proof (sqrt_pos (haversine_arg prev_lat prev_lon lat lon)).
  split; [lra|].
  rewrite <- sqrt_1. now apply sqrt_le_1_alt.
Qed.

Lemma asin_pos (x : R) : 0 < x <= 1 -> 0 < asin x.
Proof.
  intros [H0 H1].
  destruct (Rlt_dec 0 (asin x)) as [|Hn]; [assumption|exfalso].
  pose proof (asin_bound x) as [Hlo _].
  assert (Hs : sin (asin x) = x) by (apply sin_asin; lra).
  assert (0 <= sin (- asin x)).
  { pose proof PI_RGT_0. apply sin_ge_0; lra. }
  rewrite sin_neg in *. lra.
Qed.

Lemma haversine_km_nonneg (prev_lat prev_lon lat lon : R) :
  0 <= haversine_km prev_lat prev_lon lat lon.
Proof.
  unfold haversine_km.
  pose proof (haversine_arg_range prev_lat prev_lon lat lon) as [H0 H1].
  destruct (Req_dec_T (haversine_arg prev_lat prev_lon lat lon) 0) as [E|N].
  - rewrite E, sqrt_0, asin_0. lra.
  - assert (0 < asin (sqrt (haversine_arg prev_lat prev_lon lat lon))).
    { apply asin_pos. split.
      - apply sqrt_lt_R0. lra.
      - apply sqrt_haversine_arg_range. }
    lra.
Qed.

(** Two points of one meridian less than 360 degrees apart are at a
    positive distance. *)
Lemma haversine_km_pos_meridian (prev_lat lat lon : R) :
  prev_lat <> lat -> -360 < lat - prev_lat < 360 ->
  0 < haversine_km prev_lat lon lat lon.
Proof.
  intros Hne Hlt. unfold haversine_km.
  assert (0 < asin (sqrt (haversine_arg prev_lat lon lat lon))); [|lra].
  apply asin_pos. split; [|apply sqrt_haversine_arg_range].
  apply sqrt_lt_R0. unfold haversine_arg.
  replace (radians (lon - lon) / 2) with 0 by (unfold radians; lra).
  rewrite sin_0. unfold power2.
  assert (Hs : sin (radians (lat - prev_lat) / 2) <> 0).
  { pose proof PI_RGT_0. unfold radians.
    destruct (Rlt_dec 0 (lat - prev_lat)).
    - apply Rgt_not_eq, sin_gt_0; nra.
    - apply Rlt_not_eq, sin_lt_0_var; nra. }
  pose proof (Rsqr_pos_lt _ Hs) as Hp. unfold Rsqr in Hp. simpl. nra.
Qed.

(** ** Sorting *)

Lemma insert_by_perm {A : Type} (key : A -> Z) (x : A) (l : list A) :
  Permutation (x :: l) (insert_by key x l).
Proof.
  induction l as [|y l IH]; simpl; [reflexivity|].
  destruct (key x <=? key y)%Z; [reflexivity|].
  rewrite perm_swap. now constructor.
Qed.

Lemma sort_by_perm {A : Type} (key : A -> Z) (l : list A) :
  Permutation l (sort_by key l).
Proof.
  induction l as [|x l IH]; simpl; [constructor|].
  rewrite <- insert_by_perm. now constructor.
Qed.

Lemma sort_by_In {A : Type} (key : A -> Z) (l : list A) (x : A) :
  In x (sort_by key l) <-> In x l.
Proof.
  split; apply Permutation_in; [symmetry|]; apply sort_by_perm.
Qed.

(** ** Classification of a pair of consecutive pings *)

Lemma between_minutes (seconds : R) :
  between seconds 60 3600 = true <-> 1 <= seconds / 60 <= 60.
Proof.
  unfold between. rewrite andb_true_iff, !Rleb_true. lra.
Qed.

Lemma moved_iff (lat1 lon1 lat2 lon2 : R) :
  negb (Reqb lat1 lat2) || negb (Reqb lon1 lon2) = true <->
  lat1 <> lat2 \/ lon1 <> lon2.
Proof.
  now rewrite orb_true_iff, !negb_true_iff, !Reqb_false.
Qed.

(** The WHERE clause of [trip_segments] on a pair of consecutive
    pings: the pair is in-trip exactly when the minutes between the
    two readings of the Zurich clock, which the query selects as
    [duration_minutes], lie in the closed interval from 1 to 60 and
    the two positions differ.  A ping without a predecessor forms no
    pair. *)
Lemma in_trip_iff (zurich : Z -> Z) (earlier later : Ping.t) :
  let pair := lag_row zurich (Some earlier) later in
  let clock_minutes :=
    epoch (zurich (Ping.timestamp later) - zurich (Ping.timestamp earlier)) / 60 in
  let moved :=
    Ping.lat earlier <> Ping.lat later \/ Ping.lon earlier <> Ping.lon later in
  option_map Segment.duration_minutes (segment_select pair) = Some clock_minutes /\
  (in_trip pair = true <-> 1 <= clock_minutes <= 60 /\ moved) /\
  (clock_minutes = 60 -> moved -> in_trip pair = true) /\
  (clock_minutes = 61 -> in_trip pair = false) /\
  (Ping.lat earlier = Ping.lat later -> Ping.lon earlier = Ping.lon later ->
   in_trip pair = false) /\
  in_trip (lag_row zurich None later) = false.
Proof.
  intros pair clock_minutes moved.
  assert (Hiff : in_trip pair = true <-> 1 <= clock_minutes <= 60 /\ moved).
  { unfold in_trip, pair, lag_row; simpl.
    rewrite andb_true_iff, between_minutes, moved_iff. reflexivity. }
  split; [reflexivity|]. split; [exact Hiff|].
  split; [|split; [|split]].
  - intros E Hm. apply Hiff. split; [lra|assumption].
  - intros E. apply not_true_is_false. intros H. apply Hiff in H. lra.
  - intros Hlat Hlon. apply not_true_is_false. intros H.
    apply Hiff in H. destruct H as [_ [H|H]]; contradiction.
  - reflexivity.
Qed.

(** ** Acceptance of a candidate *)

Lemma accepted_iff (t : Trip.t) :
  accepted t = true <->
  1 <= Trip.total_duration t <= 60 /\ 0 < Trip.total_distance t /\
  (2 <= Trip.segment_count t)%Z.
Proof.
  unfold accepted.
  rewrite !andb_true_iff, !Rleb_true, Rltb_true, Z.leb_le. tauto.
Qed.

Lemma extract_query_In (zurich : Z -> Z) (start_date end_date : Z)
      (rows : list Ping.t) (t : Trip.t) :
  In t (extract_query zurich start_date end_date rows) <->
  In t (trip_candidates zurich start_date end_date rows) /\ accepted t = true.
Proof.
  unfold extract_query. now rewrite sort_by_In, filter_In.
Qed.

(** ** The upsert of one row *)

Lemma trip_eta (t : Trip.t) :
  Trip.mk (Trip.bike_id t) (Trip.provider_id t) (Trip.trip_start t)
          (Trip.trip_end t) (Trip.start_lat t) (Trip.start_lon t)
          (Trip.end_lat t) (Trip.end_lon t) (Trip.total_duration t)
          (Trip.total_distance t) (Trip.segment_count t) = t.
Proof. now destruct t. Qed.

Lemma conflict_inserted (trip_id : Z) (t : Trip.t) :
  conflict t (inserted trip_id t) = true.
Proof.
  unfold conflict, inserted; simpl. now rewrite String.eqb_refl, Z.eqb_refl.
Qed.

Lemma conflict_do_update (t t' : Trip.t) (r : Row.t) :
  conflict t' (do_update t r) = conflict t' r.
Proof. reflexivity. Qed.

(** On a row in conflict the update leaves only [trip_id] and the
    enrichment columns as they were. *)
Lemma do_update_overwrites (t : Trip.t) (r : Row.t) :
  conflict t r = true ->
  do_update t r = Row.mk (Row.trip_id r) t (Row.enrichment r).
Proof.
  unfold conflict, do_update. rewrite andb_true_iff, String.eqb_eq, Z.eqb_eq.
  intros [Hb Hs]. rewrite Hb, Hs, trip_eta. reflexivity.
Qed.

Lemma do_update_idem (t : Trip.t) (r : Row.t) :
  do_update t (do_update t r) = do_update t r.
Proof. reflexivity. Qed.

Lemma do_update_inserted (trip_id : Z) (t : Trip.t) :
  do_update t (inserted trip_id t) = inserted trip_id t.
Proof. unfold do_update, inserted; simpl. now rewrite trip_eta. Qed.

Lemma existsb_map_update (t : Trip.t) (rows : list Row.t) :
  existsb (conflict t)
          (map (fun r => if conflict t r then do_update t r else r) rows)
  = existsb (conflict t) rows.
Proof.
  induction rows as [|r rows IH]; simpl; [reflexivity|].
  rewrite IH. destruct (conflict t r) eqn:E.
  - now rewrite conflict_do_update, E.
  - now rewrite E.
Qed.

Lemma map_update_idem (t : Trip.t) (rows : list Row.t) :
  let update := fun r => if conflict t r then do_update t r else r in
  map update (map update rows) = map update rows.
Proof.
  intros update. rewrite map_map. apply map_ext. intros r. unfold update.
  destruct (conflict t r) eqn:E.
  - now rewrite conflict_do_update, E.
  - now rewrite E.
Qed.

Lemma map_update_no_conflict (t : Trip.t) (rows : list Row.t) :
  existsb (conflict t) rows = false ->
  map (fun r => if conflict t r then do_update t r else r) rows = rows.
Proof.
  induction rows as [|r rows IH]; simpl; [reflexivity|].
  rewrite orb_false_iff. intros [E H]. now rewrite E, IH.
Qed.

Lemma upsert_idem (rows : list Row.t) (id id' : Z) (t : Trip.t) :
  upsert (upsert rows id t) id' t = upsert rows id t.
Proof.
  unfold upsert. destruct (existsb (conflict t) rows) eqn:E.
  - rewrite existsb_map_update, E. apply map_update_idem.
  - rewrite existsb_app. cbn [existsb].
    rewrite conflict_inserted, !orb_true_r.
    rewrite map_app, map_update_no_conflict by assumption.
    cbn [map]. now rewrite conflict_inserted, do_update_inserted.
Qed.

Lemma filter_conflict_map_update (t : Trip.t) (rows : list Row.t) :
  List.length
    (filter (conflict t)
            (map (fun r => if conflict t r then do_update t r else r) rows))
  = List.length (filter (conflict t) rows).
Proof.
  induction rows as [|r rows IH]; simpl; [reflexivity|].
  destruct (conflict t r) eqn:E.
  - rewrite conflict_do_update, E. simpl. now rewrite IH.
  - now rewrite E.
Qed.

Lemma existsb_filter_length {A : Type} (f : A -> bool) (l : list A) :
  (existsb f l = true -> (1 <= List.length (filter f l))%nat) /\
  (existsb f l = false -> filter f l = []).
Proof.
  induction l as [|x l [IH1 IH2]]; simpl; [split; [discriminate|reflexivity]|].
  destruct (f x); simpl; split; intros H; try lia; try discriminate; auto.
Qed.

Lemma rows_with_key_upsert (rows : list Row.t) (id : Z) (t : Trip.t) :
  rows_with_key t (upsert rows id t) = Nat.max 1 (rows_with_key t rows).
Proof.
  unfold rows_with_key, upsert.
  destruct (existsb_filter_length (conflict t) rows) as [H1 H0].
  destruct (existsb (conflict t) rows).
  - rewrite filter_conflict_map_update. specialize (H1 eq_refl). lia.
  - rewrite filter_app, H0 by reflexivity. simpl.
    now rewrite conflict_inserted.
Qed.

(** C3: merging a trip, as a statement of one row, inserts a row with
    a new [trip_id] when no row has its [(bike_id, trip_start)], and
    otherwise gives each row of that key the columns of the trip
    ([trip_id] and the enrichment columns stay); merging the same trip
    again leaves the rows as they are, and the number of rows with
    that key is what it was, or 1 when there was none. *)
Theorem merge_insert_overwrite_idempotent
        (rows : list Row.t) (seq seq' : Z) (t : Trip.t) :
  let merged := upsert rows (seq + 1) t in
  insert_on_conflict rows seq [] [t] = ((seq + 1)%Z, Return merged) /\
  (existsb (conflict t) rows = false ->
   merged = rows ++ [inserted (seq + 1) t]) /\
  (existsb (conflict t) rows = true ->
   merged = map (fun r => if conflict t r
                          then Row.mk (Row.trip_id r) t (Row.enrichment r)
                          else r) rows) /\
  insert_on_conflict merged seq' [] [t] = ((seq' + 1)%Z, Return merged) /\
  rows_with_key t merged = Nat.max 1 (rows_with_key t rows).
Proof.
  intros merged. split; [reflexivity|].
  split; [|split; [|split]].
  - intros E. unfold merged, upsert. now rewrite E.
  - intros E. unfold merged, upsert. rewrite E. apply map_ext_in.
    intros r _. destruct (conflict t r) eqn:C; [|reflexivity].
    now apply do_update_overwrites.
  - simpl. unfold merged. now rewrite upsert_idem.
  - apply rows_with_key_upsert.
Qed.

(** ** What a statement and a batch leave alone *)

Lemma paginate_concat {A : Type} (page_size : nat) (seq : list A) :
  forall (page : list A) (room : nat),
    List.concat (paginate page_size page room seq) = rev page ++ seq.
Proof.
  induction seq as [|x seq IH]; intros page room; simpl.
  - destruct page; simpl; [reflexivity|]. now rewrite !app_nil_r.
  - destruct room; simpl; rewrite IH; simpl; [reflexivity|].
    now rewrite <- app_assoc.
Qed.

(** The pages of [execute_values] are the rows, in order. *)
Lemma pages_concat {A : Type} (seq : list A) : List.concat (pages seq) = seq.
Proof. unfold pages. now rewrite paginate_concat. Qed.




Lemma insert_statement_frame (f : faults) (n : nat) (page : list Trip.t)
      (w w' : world) (r : outcome unit) :
  insert_statement f n page w = (w', r) ->
  all_trips w' = all_trips w /\ bike_status w' = bike_status w.
Proof.
  unfold insert_statement. destruct (insert_execute f n).
  - intros E; inversion E; subst; auto.
  - destruct (insert_on_conflict _ _ _ _) as [seq' [rows'|e]];
      intros E; inversion E; subst; auto.
Qed.


Lemma execute_values_frame (f : faults) (ps : list (list Trip.t)) :
  forall (n : nat) (w w' : world) (r : outcome unit),
    execute_values f n ps w = (w', r) ->
    all_trips w' = all_trips w /\ bike_status w' = bike_status w.
Proof.
  induction ps as [|page ps IH]; intros n w w' r; simpl.
  - unfold ret. intros E; inversion E; subst; auto.
  - unfold bind. destruct (insert_statement f n page w) as [w1 [[]|e]] eqn:Hs;
      intros E; apply insert_statement_frame in Hs as [Ha Hb].
    + apply IH in E as [Ha' Hb']. split; congruence.
    + inversion E; subst; auto.
Qed.


Lemma fetch_records_eq (zurich cast_timestamp : Z -> Z) (f : faults)
      (start_date end_date : Z) (w : world) :
  fetch_records zurich cast_timestamp f start_date end_date w =
  match extract_execute f with
  | Some e => (w, Raise e)
  | None => (w, Return (extract_query zurich (cast_timestamp start_date)
                                      (cast_timestamp end_date) (bike_status w)))
  end.
Proof.
  unfold fetch_records, bind, call. now destruct (extract_execute f).
Qed.

(** ** The control flow of the job *)

Section JobProperties.

Variables zurich localize cast_timestamp : Z -> Z.

Lemma extract_and_load_data_cases (f : faults) (start_date end_date : Z) (w : world) :
  extract_and_load_data zurich cast_timestamp f start_date end_date w =
  match extract_execute f with
  | Some e => (w, Raise e)
  | None =>
      match extract_query zurich (cast_timestamp start_date)
                          (cast_timestamp end_date) (bike_status w) with
      | [] => (w, Return tt)
      | t :: records =>
          match execute_values f 0 (pages (t :: records)) w with
          | (w1, Return _) =>
              match load_commit f with
              | Some e => (w1, Raise e)
              | None => (commit_txn w1, Return tt)
              end
          | (w1, Raise e) => (w1, Raise e)
          end
      end
  end.
Proof.
  unfold extract_and_load_data, bind. rewrite fetch_records_eq.
  destruct (extract_execute f); [reflexivity|].
  destruct (extract_query _ _ _ _); [reflexivity|].
  destruct (execute_values _ _ _ _) as [w1 [[]|e]]; [|reflexivity].
  unfold call. now destruct (load_commit f).
Qed.

Lemma handler_body_cases (f : faults) (now : Z) (w : world) :
  handler_body zurich localize cast_timestamp f now w =
  match connect_source f with
  | Some e => (w, Raise e)
  | None =>
      match connect_dest f with
      | Some e => (w, Raise e)
      | None =>
          match create_table_execute f with
          | Some e => (reset_txn w, Raise e)
          | None =>
              match create_table_commit f with
              | Some e => (reset_txn w, Raise e)
              | None =>
                  let (w1, r) :=
                    extract_and_load_data zurich cast_timestamp f
                      (localize now - day) (localize now) (reset_txn w) in
                  (reset_txn w1, r)
              end
          end
      end
  end.
Proof.
  unfold handler_body, database_connection, create_destination_table,
    try_finally, bind, call.
  destruct (connect_source f); [reflexivity|].
  destruct (connect_dest f); [reflexivity|].
  destruct (create_table_execute f); [reflexivity|].
  destruct (create_table_commit f); [reflexivity|].
  cbn [reset_txn commit_txn bike_status all_trips all_trips_trip_id_seq dest_txn].
  fold (reset_txn w).
  now destruct (extract_and_load_data _ _ _ _ _ _) as [w1 [[]|e]].
Qed.

(** An exception of [extract_and_load_data] leaves the table as it
    was: the batch is committed once, after its last page. *)
Lemma extract_and_load_data_raise (f : faults) (start_date end_date : Z)
      (w w' : world) (e : string) :
  extract_and_load_data zurich cast_timestamp f start_date end_date w = (w', Raise e) ->
  all_trips w' = all_trips w.
Proof.
  rewrite extract_and_load_data_cases.
  destruct (extract_execute f); [intros E; now inversion E|].
  destruct (extract_query _ _ _ _); [discriminate|].
  destruct (execute_values _ _ _ _) as [w1 [[]|e1]] eqn:Hv;
    apply execute_values_frame in Hv as [Ha _].
  - destruct (load_commit f); [|discriminate].
    intros E; inversion E; subst; assumption.
  - intros E; inversion E; subst; assumption.
Qed.

End JobProperties.

(** ** Grouping *)

Lemma group_key_eqb_eq (k1 k2 : group_key) :
  group_key_eqb k1 k2 = true <-> k1 = k2.
Proof.
  destruct k1 as [a1 b1], k2 as [a2 b2]. unfold group_key_eqb; simpl.
  rewrite andb_true_iff, !String.eqb_eq. split.
  - now intros [-> ->].
  - intros E; inversion E; auto.
Qed.

Lemma group_of_In (k : group_key) (segments : list Segment.t) (s : Segment.t) :
  In s (group_of k segments) <-> In s segments /\ segment_key s = k.
Proof. unfold group_of. now rewrite filter_In, group_key_eqb_eq. Qed.

Lemma trip_key_aggregate (s : Segment.t) (rest : list Segment.t) :
  trip_key (aggregate s rest) = segment_key s.
Proof. reflexivity. Qed.

Lemma group_of_head (k : group_key) (segments rest : list Segment.t) (s : Segment.t) :
  group_of k segments = s :: rest -> segment_key s = k.
Proof.
  intros E. apply (group_of_In k segments s). rewrite E. now left.
Qed.

Lemma aggregates_keys (segments : list Segment.t) (ks : list group_key) :
  (forall k, In k ks -> In k (map segment_key segments)) ->
  map trip_key
      (flat_map (fun k => match group_of k segments with
                          | [] => []
                          | s :: rest => [aggregate s rest]
                          end) ks) = ks.
Proof.
  induction ks as [|k ks IH]; intros Hks; simpl; [reflexivity|].
  rewrite map_app, IH by (intros k' Hk'; apply Hks; now right).
  destruct (group_of k segments) as [|s rest] eqn:E.
  - exfalso. pose proof (Hks k (or_introl eq_refl)) as H.
    apply in_map_iff in H. destruct H as [s [Hk Hs]].
    assert (Hin : In s (group_of k segments)) by now apply group_of_In.
    rewrite E in Hin. contradiction.
  - simpl. f_equal. now apply group_of_head in E.
Qed.

Lemma trip_aggregates_keys (segments : list Segment.t) :
  map trip_key (trip_aggregates segments) =
  nodup group_key_dec (map segment_key segments).
Proof.
  unfold trip_aggregates. apply aggregates_keys.
  intros k. apply nodup_In.
Qed.

Lemma trip_aggregates_In (segments : list Segment.t) (t : Trip.t) :
  In t (trip_aggregates segments) ->
  exists s rest, group_of (trip_key t) segments = s :: rest /\ t = aggregate s rest.
Proof.
  unfold trip_aggregates. rewrite in_flat_map. intros [k [_ Ht]].
  destruct (group_of k segments) as [|s rest] eqn:E; [contradiction|].
  destruct Ht as [<-|[]]. exists s, rest. split; [|reflexivity].
  rewrite trip_key_aggregate. now rewrite (group_of_head _ _ _ _ E).
Qed.

(** The rows of [trip_segments] are the in-trip rows of [trip_data]. *)
Lemma trip_segments_in_trip (rows : list TripData.t) :
  map Some (trip_segments rows) = map segment_select (filter in_trip rows).
Proof.
  induction rows as [|r rows IH]; simpl; [reflexivity|].
  unfold trip_segments in *. simpl.
  destruct (in_trip r) eqn:E; simpl; [|assumption].
  rewrite map_app, IH. f_equal.
  unfold in_trip in E. unfold segment_select.
  destruct (TripData.prev_time r), (TripData.prev_lat r), (TripData.prev_lon r);
    try discriminate.
  reflexivity.
Qed.

(** ** Scenarios, evaluated *)

Ltac eval_minmax :=
  repeat match goal with
  | |- context [Rmin ?a ?b] =>
      first [ rewrite (Rmin_left a b) by lra | rewrite (Rmin_right a b) by lra ]
  | |- context [Rmax ?a ?b] =>
      first [ rewrite (Rmax_left a b) by lra | rewrite (Rmax_right a b) by lra ]
  end.

Ltac eval_segments :=
  cbn; unfold lag_row; cbn; unfold in_trip, between; cbn; eval_R; cbn.

Ltac eval_candidates :=
  unfold trip_candidates; eval_segments; unfold aggregate; cbn; eval_minmax.

Ltac eval_accepted :=
  unfold accepted; cbn; eval_R; cbn; repeat f_equal; unfold epoch; lra.

Lemma two_runs_candidates :
  trip_candidates cet window_start window_end two_runs =
  [ Trip.mk "V1" "P1" (cet (at_min 0)) (cet (at_min 140)) 47.00 8 47.05 8 40
      (haversine_km 47.00 8 47.01 8 + (haversine_km 47.01 8 47.02 8 +
        (haversine_km 47.03 8 47.04 8 + (haversine_km 47.04 8 47.05 8 + 0)))) 4 ].
Proof.
  eval_candidates. repeat f_equal. unfold epoch. lra.
Qed.

Lemma two_runs_query :
  extract_query cet window_start window_end two_runs =
  trip_candidates cet window_start window_end two_runs.
Proof.
  unfold extract_query. rewrite two_runs_candidates.
  pose proof (haversine_km_pos_meridian 47.00 47.01 8 ltac:(lra) ltac:(lra)).
  pose proof (haversine_km_pos_meridian 47.01 47.02 8 ltac:(lra) ltac:(lra)).
  pose proof (haversine_km_pos_meridian 47.03 47.04 8 ltac:(lra) ltac:(lra)).
  pose proof (haversine_km_pos_meridian 47.04 47.05 8 ltac:(lra) ltac:(lra)).
  cbn. eval_accepted.
Qed.

Lemma southbound_query :
  extract_query cet window_start window_end southbound =
  [ Trip.mk "V1" "P1" (cet (at_min 0)) (cet (at_min 20)) 47.02 8 47.02 8 20
      (haversine_km 47.03 8 47.02 8 + (haversine_km 47.02 8 47.01 8 + 0)) 2 ].
Proof.
  unfold extract_query. eval_candidates.
  pose proof (haversine_km_pos_meridian 47.03 47.02 8 ltac:(lra) ltac:(lra)).
  pose proof (haversine_km_pos_meridian 47.02 47.01 8 ltac:(lra) ltac:(lra)).
  eval_accepted.
Qed.

(** The first scenario of the spec: one trip of three segments and
    40 minutes. *)
Lemma v1_query :
  extract_query cet window_start window_end v1_pings = [v1_trip].
Proof.
  unfold extract_query, v1_trip. eval_candidates.
  pose proof (haversine_km_pos_meridian 47.0 47.01 8 ltac:(lra) ltac:(lra)).
  pose proof (haversine_km_pos_meridian 47.01 47.02 8 ltac:(lra) ltac:(lra)).
  pose proof (haversine_km_pos_meridian 47.02 47.03 8 ltac:(lra) ltac:(lra)).
  eval_accepted.
Qed.

(** The second scenario of the spec: no trip. *)
Lemma v2_query : extract_query cet window_start window_end v2_pings = [].
Proof. unfold extract_query. eval_candidates. reflexivity. Qed.

(** ** Candidates *)

(** C1, as the query has it: the in-trip pairs of a window are grouped
    by vehicle and provider, not by run.  No two candidates have the
    same vehicle and provider, every in-trip pair belongs to the
    candidate of its vehicle and provider, and a candidate aggregates
    all in-trip pairs of its vehicle and provider in the window, its
    [segment_count] being their number; a pair that is not in-trip is
    left out and separates nothing. *)
Theorem one_candidate_per_vehicle_and_provider
        (zurich : Z -> Z) (start_date end_date : Z) (bike_status : list Ping.t) :
  let pairs := trip_data zurich start_date end_date bike_status in
  let segments := trip_segments pairs in
  let candidates := trip_candidates zurich start_date end_date bike_status in
  map Some segments = map segment_select (filter in_trip pairs) /\
  NoDup (map trip_key candidates) /\
  (forall seg, In seg segments ->
               exists t, In t candidates /\ trip_key t = segment_key seg) /\
  (forall t, In t candidates ->
             exists seg rest,
               group_of (trip_key t) segments = seg :: rest /\
               t = aggregate seg rest /\
               Trip.segment_count t =
               Z.of_nat (List.length (group_of (trip_key t) segments))).
Proof.
  intros pairs segments candidates.
  split; [apply trip_segments_in_trip|].
  assert (Hkeys : map trip_key candidates =
                  nodup group_key_dec (map segment_key segments))
    by apply trip_aggregates_keys.
  split; [|split].
  - rewrite Hkeys. apply NoDup_nodup.
  - intros seg Hseg.
    assert (Hk : In (segment_key seg) (map trip_key candidates)).
    { rewrite Hkeys. apply nodup_In. now apply in_map. }
    apply in_map_iff in Hk. destruct Hk as [t [Hk Ht]]. eauto.
  - intros t Ht. apply trip_aggregates_In in Ht.
    destruct Ht as [seg [rest [Hg ->]]]. exists seg, rest.
    split; [assumption|]. split; [reflexivity|].
    subst segments pairs. rewrite Hg. reflexivity.
Qed.

(** C1 fails as stated: a vehicle with two runs of in-trip pairs, 100
    minutes apart, has two maximal runs and one candidate, of four
    segments, which is accepted as one trip. *)
Lemma two_runs_one_candidate :
  List.length (spec_trip_candidates cet window_start window_end two_runs) = 2%nat /\
  List.length (trip_candidates cet window_start window_end two_runs) = 1%nat /\
  map Trip.segment_count (extract_query cet window_start window_end two_runs) = [4%Z].
Proof.
  split; [|split].
  - unfold spec_trip_candidates. eval_segments. reflexivity.
  - now rewrite two_runs_candidates.
  - now rewrite two_runs_query, two_runs_candidates.
Qed.

(** C2 at a vehicle that rides south from latitude 47.03 over 47.02
    to 47.01: the trip that is loaded starts and ends at latitude
    47.02, the least latitude of the earlier pings and the greatest of
    the later ones. *)
Theorem southbound_trip_coordinates :
  map Ping.lat southbound = [47.03; 47.02; 47.01] /\
  map (fun t => (Trip.start_lat t, Trip.end_lat t))
      (extract_query cet window_start window_end southbound) = [(47.02, 47.02)].
Proof.
  split; [reflexivity|]. now rewrite southbound_query.
Qed.

(** ** Validation *)

Lemma existsb_conflict_map_update (t t' : Trip.t) (rows : list Row.t) :
  existsb (conflict t')
          (map (fun r => if conflict t r then do_update t r else r) rows)
  = existsb (conflict t') rows.
Proof.
  induction rows as [|r rows IH]; simpl; [reflexivity|].
  rewrite IH. now destruct (conflict t r).
Qed.

Lemma upsert_has_key (rows : list Row.t) (id : Z) (t : Trip.t) :
  existsb (conflict t) (upsert rows id t) = true.
Proof.
  unfold upsert. destruct (existsb (conflict t) rows) eqn:E.
  - now rewrite existsb_conflict_map_update.
  - rewrite existsb_app. simpl. now rewrite conflict_inserted, !orb_true_r.
Qed.

Lemma upsert_keeps_key (rows : list Row.t) (id : Z) (t t' : Trip.t) :
  existsb (conflict t') rows = true ->
  existsb (conflict t') (upsert rows id t) = true.
Proof.
  intros H. unfold upsert. destruct (existsb (conflict t) rows).
  - now rewrite existsb_conflict_map_update.
  - rewrite existsb_app, H. reflexivity.
Qed.

(** After a statement that raised nothing, every key that had a row
    has one, and so has every row of the page. *)
Lemma insert_on_conflict_keys (page : list Trip.t) :
  forall rows seq affected seq' rows',
    insert_on_conflict rows seq affected page = (seq', Return rows') ->
    (forall t', existsb (conflict t') rows = true ->
                existsb (conflict t') rows' = true) /\
    (forall t, In t page -> existsb (conflict t) rows' = true).
Proof.
  induction page as [|t page IH]; intros rows seq affected seq' rows'; simpl.
  - intros E; inversion E; subst. split; [auto|contradiction].
  - destruct (existsb _ affected); [discriminate|].
    intros E. apply IH in E as [Hkeep Hpage]. split.
    + intros t' H. apply Hkeep. now apply upsert_keeps_key.
    + intros t0 [<-|Hin]; [|auto]. apply Hkeep, upsert_has_key.
Qed.

Lemma execute_values_keys (f : faults) (ps : list (list Trip.t)) :
  forall (n : nat) (w w' : world),
    execute_values f n ps w = (w', Return tt) ->
    (forall t', existsb (conflict t') (dest_txn w) = true ->
                existsb (conflict t') (dest_txn w') = true) /\
    (forall page t, In page ps -> In t page ->
                    existsb (conflict t) (dest_txn w') = true).
Proof.
  induction ps as [|page ps IH]; intros n w w'; simpl.
  - unfold ret. intros E; inversion E; subst. split; [auto|contradiction].
  - unfold bind.
    destruct (insert_statement f n page w) as [w1 [[]|e]] eqn:Hs; [|discriminate].
    intros E. apply IH in E as [Hkeep Hps].
    unfold insert_statement in Hs.
    destruct (insert_execute f n); [discriminate|].
    destruct (insert_on_conflict _ _ _ _) as [seq' [rows'|e]] eqn:Hi;
      [|discriminate].
    inversion Hs; subst. simpl in *.
    apply insert_on_conflict_keys in Hi as [Hkeep1 Hpage].
    split.
    + intros t' H. apply Hkeep, Hkeep1, H.
    + intros page' t [<-|Hin] Ht; [apply Hkeep, Hpage, Ht|eauto].
Qed.



(** ** The run *)

Lemma insert_on_conflict_raise (page : list Trip.t) :
  forall rows seq affected seq' e,
    insert_on_conflict rows seq affected page = (seq', Raise e) ->
    e = cardinality_violation.
Proof.
  induction page as [|t page IH]; intros rows seq affected seq' e; simpl.
  - discriminate.
  - destruct (existsb _ affected); [intros E; now inversion E|apply IH].
Qed.

Lemma execute_values_raise (f : faults) (ps : list (list Trip.t)) :
  forall (n : nat) (w w' : world) (e : string),
    execute_values f n ps w = (w', Raise e) ->
    (exists page_no, insert_execute f page_no = Some e) \/ e = cardinality_violation.
Proof.
  induction ps as [|page ps IH]; intros n w w' e; simpl.
  - discriminate.
  - unfold bind. destruct (insert_statement f n page w) as [w1 [[]|e1]] eqn:Hs.
    + apply IH.
    + intros E; inversion E; subst. unfold insert_statement in Hs.
      destruct (insert_execute f n) eqn:Hf.
      * inversion Hs; subst. left. eauto.
      * destruct (insert_on_conflict _ _ _ _) as [seq' [rows'|e2]] eqn:Hi;
          inversion Hs; subst.
        right. eapply insert_on_conflict_raise; eauto.
Qed.

Section Run.

Variables zurich localize cast_timestamp : Z -> Z.

Lemma extract_and_load_data_raised_by (f : faults) (start_date end_date : Z)
      (w w' : world) (e : string) :
  extract_and_load_data zurich cast_timestamp f start_date end_date w = (w', Raise e) ->
  raised_by f e.
Proof.
  rewrite extract_and_load_data_cases. unfold raised_by.
  destruct (extract_execute f); [intros E; inversion E; tauto|].
  destruct (extract_query _ _ _ _); [discriminate|].
  destruct (execute_values _ _ _ _) as [w1 [[]|e1]] eqn:Hv.
  - destruct (load_commit f); [|discriminate]. intros E; inversion E; tauto.
  - intros E; inversion E; subst.
    apply execute_values_raise in Hv. tauto.
Qed.

(** C10: when the query finds no trip in the window, no statement is
    sent to the destination and nothing is committed: the function
    returns with the destination, its open transaction and its
    sequence as they were. *)
Theorem no_records_no_write (f : faults) (start_date end_date : Z) (w : world) :
  extract_execute f = None ->
  extract_query zurich (cast_timestamp start_date) (cast_timestamp end_date)
                (bike_status w) = [] ->
  extract_and_load_data zurich cast_timestamp f start_date end_date w =
  (w, Return tt).
Proof.
  intros Hf Hq. rewrite extract_and_load_data_cases, Hf, Hq. reflexivity.
Qed.

(** C9: when [extract_and_load_data] raises, in the extraction or in
    a statement of the batch, nothing of the batch is committed: the
    destination has the rows it had before the run, and the run
    answers with status 500 and the message of the exception. *)
Theorem failed_run_commits_nothing
        (f : faults) (now : Z) (w w1 : world) (e : string) :
  connect_source f = None -> connect_dest f = None ->
  create_table_execute f = None -> create_table_commit f = None ->
  extract_and_load_data zurich cast_timestamp f
    (localize now - day) (localize now) (reset_txn w) = (w1, Raise e) ->
  all_trips w1 = all_trips w /\
  lambda_handler zurich localize cast_timestamp f now w =
    (reset_txn w1, failure e) /\
  all_trips (reset_txn w1) = all_trips w /\
  dest_txn (reset_txn w1) = all_trips w.
Proof.
  intros Hs Hd Hx Hc Hrun.
  assert (Ha : all_trips w1 = all_trips w).
  { apply extract_and_load_data_raise in Hrun. exact Hrun. }
  split; [exact Ha|]. split; [|split; exact Ha].
  unfold lambda_handler. rewrite handler_body_cases, Hs, Hd, Hx, Hc, Hrun.
  reflexivity.
Qed.

(** C6, as the handler has it: the result is a status code and a
    text.  A run that raised nothing answers 200 with one fixed text,
    whatever its window and however many trips it loaded; a run in
    which a database call raised answers 500 with "Error: " and the
    message of that exception. *)
Theorem lambda_handler_response (f : faults) (now : Z) (w : world) :
  let run := lambda_handler zurich localize cast_timestamp f now w in
  (snd run = success /\
   handler_body zurich localize cast_timestamp f now w = (fst run, Return tt)) \/
  (exists e, snd run = failure e /\ raised_by f e /\
             handler_body zurich localize cast_timestamp f now w = (fst run, Raise e)).
Proof.
  intros run. subst run. unfold lambda_handler.
  destruct (handler_body zurich localize cast_timestamp f now w) as [w' [[]|e]] eqn:Hb.
  - left. split; reflexivity.
  - right. exists e. split; [reflexivity|]. split; [|reflexivity].
    rewrite handler_body_cases in Hb. unfold raised_by.
    destruct (connect_source f) eqn:E1; [inversion Hb; tauto|].
    destruct (connect_dest f) eqn:E2; [inversion Hb; tauto|].
    destruct (create_table_execute f) eqn:E3; [inversion Hb; tauto|].
    destruct (create_table_commit f) eqn:E4; [inversion Hb; tauto|].
    destruct (extract_and_load_data _ _ _ _ _ _) as [w1 r] eqn:Hrun.
    inversion Hb; subst.
    apply extract_and_load_data_raised_by in Hrun.
    unfold raised_by in Hrun. rewrite E1, E2, E3, E4 in Hrun. exact Hrun.
Qed.

End Run.

(** ** Runs, evaluated *)

Lemma window_of_now_jan16 :
  session_utc (localize_cet now_jan16 - day) = window_start /\
  session_utc (localize_cet now_jan16) = window_end.
Proof. split; reflexivity. Qed.

(** The load of [v1_pings] in an environment [f] whose extraction
    succeeds. *)
Lemma v1_load (f : faults) :
  extract_execute f = None ->
  extract_and_load_data cet session_utc f (localize_cet now_jan16 - day)
                        (localize_cet now_jan16) (reset_txn (world_of v1_pings)) =
  match insert_execute f 0 with
  | Some e => (reset_txn (world_of v1_pings), Raise e)
  | None =>
      match load_commit f with
      | Some e => (mk_world v1_pings [old_row] 8 [old_row; inserted 8 v1_trip], Raise e)
      | None => (world_with_v1, Return tt)
      end
  end.
Proof.
  intros Hf. rewrite extract_and_load_data_cases, Hf.
  destruct window_of_now_jan16 as [-> ->].
  change (bike_status (reset_txn (world_of v1_pings))) with v1_pings.
  rewrite v1_query.
  change (pages [v1_trip]) with [[v1_trip]].
  unfold execute_values, bind, insert_statement, ret.
  destruct (insert_execute f 0); [reflexivity|].
  destruct (load_commit f); reflexivity.
Qed.

Lemma v1_run :
  lambda_handler cet localize_cet session_utc no_faults now_jan16 (world_of v1_pings)
  = (world_with_v1, success).
Proof.
  unfold lambda_handler. rewrite handler_body_cases.
  cbn [no_faults connect_source connect_dest create_table_execute create_table_commit].
  rewrite v1_load by reflexivity. reflexivity.
Qed.

Lemma empty_run (now : Z) :
  lambda_handler cet localize_cet session_utc no_faults now (world_of [])
  = (reset_txn (world_of []), success).
Proof.
  unfold lambda_handler. rewrite handler_body_cases.
  cbn [no_faults connect_source connect_dest create_table_execute create_table_commit].
  rewrite extract_and_load_data_cases. reflexivity.
Qed.

(** C10 at the second scenario of the spec: the only pair of V2 is a
    boundary, the query returns no row, and the load does nothing. *)
Lemma no_records_no_write_witness :
  extract_execute no_faults = None /\
  extract_query cet (session_utc window_start) (session_utc window_end)
                (bike_status (world_of v2_pings)) = [] /\
  extract_and_load_data cet session_utc no_faults window_start window_end
                        (world_of v2_pings) = (world_of v2_pings, Return tt).
Proof.
  split; [reflexivity|]. split; [exact v2_query|].
  apply (no_records_no_write cet session_utc no_faults window_start window_end
                             (world_of v2_pings));
    [reflexivity | exact v2_query].
Defined.

(** C9 at a run whose batch is the trip of V1 and whose [INSERT]
    statement loses the connection. *)
Lemma failed_run_commits_nothing_witness :
  lambda_handler cet localize_cet session_utc (insert_fails connection_lost)
                 now_jan16 (world_of v1_pings) =
    (reset_txn (world_of v1_pings), failure connection_lost) /\
  all_trips (reset_txn (world_of v1_pings)) = [old_row].
Proof.
  pose proof (failed_run_commits_nothing cet localize_cet session_utc
                (insert_fails connection_lost) now_jan16 (world_of v1_pings)
                (reset_txn (world_of v1_pings)) connection_lost
                eq_refl eq_refl eq_refl eq_refl
                (v1_load (insert_fails connection_lost) eq_refl)) as H.
  split; [apply H|reflexivity].
Defined.

(** A run whose [commit] fails after the batch was sent: the row the
    batch wrote in the transaction is not in the table. *)
Lemma commit_failure_discards_batch :
  let f := mk_faults None None None None None (fun _ => None) (Some connection_lost) in
  dest_txn (fst (extract_and_load_data cet session_utc f
                   (localize_cet now_jan16 - day) (localize_cet now_jan16)
                   (reset_txn (world_of v1_pings)))) = [old_row; inserted 8 v1_trip] /\
  lambda_handler cet localize_cet session_utc f now_jan16 (world_of v1_pings) =
    (mk_world v1_pings [old_row] 8 [old_row], failure connection_lost).
Proof.
  split.
  - now rewrite v1_load.
  - unfold lambda_handler. rewrite handler_body_cases.
    cbn [connect_source connect_dest create_table_execute create_table_commit].
    now rewrite v1_load.
Qed.

(** C6 fails as stated: a run that loads one trip of one window and a
    run that finds nothing in the next window give the same result,
    and so do a run that fails in the extraction and a run that fails
    in the load. *)
Lemma response_without_window_and_count :
  let run_a :=
    lambda_handler cet localize_cet session_utc no_faults now_jan16
                   (world_of v1_pings) in
  let run_b :=
    lambda_handler cet localize_cet session_utc no_faults (now_jan16 + day)
                   (world_of []) in
  let run_c :=
    lambda_handler cet localize_cet session_utc (extract_fails connection_lost)
                   now_jan16 (world_of v1_pings) in
  let run_d :=
    lambda_handler cet localize_cet session_utc (insert_fails connection_lost)
                   now_jan16 (world_of v1_pings) in
  snd run_a = snd run_b /\
  all_trips (fst run_a) = [old_row; inserted 8 v1_trip] /\
  all_trips (fst run_b) = [old_row] /\
  session_utc (localize_cet now_jan16) <> session_utc (localize_cet (now_jan16 + day)) /\
  snd run_c = snd run_d.
Proof.
  cbv zeta. rewrite v1_run, empty_run.
  split; [reflexivity|]. split; [reflexivity|]. split; [reflexivity|].
  split; [discriminate|].
  unfold lambda_handler. rewrite !handler_body_cases.
  cbn [extract_fails insert_fails connect_source connect_dest
       create_table_execute create_table_commit].
  rewrite (v1_load (insert_fails connection_lost)) by reflexivity.
  rewrite extract_and_load_data_cases. reflexivity.
Qed.

(** ** Further properties of the query and of the load *)

(** X1: over the reals no coordinates take [sqrt] or [asin] out of
    their domains, and the distance is not negative. *)
Theorem haversine_domain (prev_lat prev_lon lat lon : R) :
  0 <= haversine_arg prev_lat prev_lon lat lon <= 1 /\
  -1 <= sqrt (haversine_arg prev_lat prev_lon lat lon) <= 1 /\
  0 <= haversine_km prev_lat prev_lon lat lon.
Proof.
  split; [apply haversine_arg_range|].
  split; [apply sqrt_haversine_arg_range|apply haversine_km_nonneg].
Qed.

Lemma min_Z_lower (x : Z) (l : list Z) :
  Forall (fun y => (x <= y)%Z) l -> min_Z x l = x.
Proof.
  unfold min_Z. induction l as [|y l IH]; simpl; intros H; [reflexivity|].
  inversion H; subst. rewrite Z.min_l by assumption. auto.
Qed.

Lemma consecutive_starts (rest : list Segment.t) :
  forall s, consecutive s rest ->
            Forall (fun y => (Segment.start_time s <= y)%Z)
                   (map Segment.start_time rest).
Proof.
  induction rest as [|r rest IH]; intros s; simpl; [constructor|].
  intros [Hs [Hr Hc]]. constructor; [lia|].
  specialize (IH r Hc).
  assert (Hlt : (Segment.start_time r < Segment.end_time r)%Z)
    by (destruct rest; apply Hc).
  eapply Forall_impl; [|exact IH]. simpl. intros y Hy. lia.
Qed.

Lemma last_cons_default {A : Type} (l : list A) :
  forall a d d' : A, last (a :: l) d = last (a :: l) d'.
Proof.
  induction l as [|b l IH]; intros a d d'; [reflexivity|].
  change (last (b :: l) d = last (b :: l) d'). apply IH.
Qed.

Lemma consecutive_max_end (rest : list Segment.t) :
  forall s, consecutive s rest ->
            max_Z (Segment.end_time s) (map Segment.end_time rest) =
            Segment.end_time (last rest s).
Proof.
  unfold max_Z. induction rest as [|r rest IH]; intros s; simpl; [reflexivity|].
  intros [Hs [Hr Hc]].
  assert (Hlt : (Segment.start_time r < Segment.end_time r)%Z)
    by (destruct rest; apply Hc).
  rewrite Z.max_r by lia. rewrite (IH r Hc).
  destruct rest as [|t rest]; [reflexivity|].
  f_equal. change (last (t :: rest) r = last (t :: rest) s).
  apply last_cons_default.
Qed.

(** X2: over a run of consecutive pairs the aggregate starts at the
    time of the earlier ping of the first pair and ends at the time
    of the later ping of the last one, and its duration, distance and
    count are the sums and the number of the pairs. *)
Theorem aggregate_of_consecutive (s : Segment.t) (rest : list Segment.t) :
  consecutive s rest ->
  Trip.trip_start (aggregate s rest) = Segment.start_time s /\
  Trip.trip_end (aggregate s rest) = Segment.end_time (last rest s) /\
  Trip.total_duration (aggregate s rest) =
    sum_R (map Segment.duration_minutes (s :: rest)) /\
  Trip.total_distance (aggregate s rest) =
    sum_R (map Segment.distance_km (s :: rest)) /\
  Trip.segment_count (aggregate s rest) = Z.of_nat (List.length (s :: rest)).
Proof.
  intros Hc. split; [|split; [|repeat split]].
  - apply min_Z_lower, consecutive_starts, Hc.
  - apply consecutive_max_end, Hc.
Qed.

Lemma aggregate_of_consecutive_witness :
  let s1 := Segment.mk "V1" "P1" 600 0 47.03 8 47.02 8 10 1 in
  let s2 := Segment.mk "V1" "P1" 1200 600 47.02 8 47.01 8 10 1 in
  consecutive s1 [s2] /\
  Trip.trip_start (aggregate s1 [s2]) = 0%Z /\
  Trip.trip_end (aggregate s1 [s2]) = 1200%Z.
Proof.
  intros s1 s2.
  assert (Hc : consecutive s1 [s2]) by (simpl; lia).
  split; [exact Hc|].
  destruct (aggregate_of_consecutive s1 [s2] Hc) as [H1 [H2 _]].
  split; [exact H1|exact H2].
Defined.

Lemma insert_by_Sorted {A : Type} (key : A -> Z) (x : A) (l : list A) :
  Sorted (fun a b => (key a <= key b)%Z) l ->
  Sorted (fun a b => (key a <= key b)%Z) (insert_by key x l).
Proof.
  induction l as [|y l IH]; simpl; intros Hs.
  - repeat constructor.
  - destruct (key x <=? key y)%Z eqn:E.
    + constructor; [assumption|]. constructor. now apply Z.leb_le.
    + apply Sorted_inv in Hs as [Hs Hd]. constructor; [auto|].
      apply Z.leb_gt in E. destruct l as [|z l]; simpl.
      * constructor. lia.
      * destruct (key x <=? key z)%Z; constructor; [lia|].
        now inversion Hd.
Qed.

(** X5: the result of the query is in the order of [trip_start]. *)
Theorem extract_query_sorted (zurich : Z -> Z) (start_date end_date : Z)
        (bike_status : list Ping.t) :
  Sorted (fun a b => (Trip.trip_start a <= Trip.trip_start b)%Z)
         (extract_query zurich start_date end_date bike_status).
Proof.
  unfold extract_query, sort_by.
  induction (filter accepted _) as [|t l IH]; simpl; [constructor|].
  now apply insert_by_Sorted.
Qed.

Lemma paginate_lengths {A : Type} (page_size : nat) (seq : list A) :
  (1 <= page_size)%nat ->
  forall (page : list A) (room : nat),
    (List.length page + room = page_size)%nat ->
    Forall (fun p => (1 <= List.length p <= page_size)%nat)
           (paginate page_size page room seq).
Proof.
  intros Hsize. induction seq as [|x seq IH]; intros page room Hroom; simpl.
  - destruct page as [|y page]; constructor; [|constructor].
    rewrite length_rev. simpl in *. lia.
  - destruct room as [|room].
    + constructor.
      * rewrite length_rev. lia.
      * apply IH. simpl. lia.
    + apply IH. simpl. lia.
Qed.

(** X6: the pages of [execute_values] are the rows in order, none
    empty, none of more than 100 rows. *)
Theorem pages_partition {A : Type} (seq : list A) :
  List.concat (pages seq) = seq /\
  Forall (fun p => (1 <= List.length p <= 100)%nat) (pages seq).
Proof.
  split; [apply pages_concat|].
  unfold pages. apply paginate_lengths; simpl; lia.
Qed.

(** X7: where Zurich's clock is at a constant offset from UTC, the
    elapsed minutes of a pair are those between its two timestamps. *)
Theorem in_trip_constant_offset
        (zurich : Z -> Z) (offset : Z) (earlier later : Ping.t) :
  (forall t, zurich t = (t + offset)%Z) ->
  (in_trip (lag_row zurich (Some earlier) later) = true <->
   1 <= epoch (Ping.timestamp later - Ping.timestamp earlier) / 60 <= 60 /\
   (Ping.lat earlier <> Ping.lat later \/ Ping.lon earlier <> Ping.lon later)).
Proof.
  intros Hz. unfold in_trip, lag_row; simpl.
  rewrite andb_true_iff, between_minutes, moved_iff, !Hz.
  replace (Ping.timestamp later + offset - (Ping.timestamp earlier + offset))%Z
    with (Ping.timestamp later - Ping.timestamp earlier)%Z by lia.
  reflexivity.
Qed.

Lemma in_trip_constant_offset_witness :
  let earlier := Ping.mk "V1" "P1" 47.0 8 (at_min 0) in
  let later := Ping.mk "V1" "P1" 47.01 8 (at_min 10) in
  (forall t, cet t = (t + 3600000000)%Z) /\
  (in_trip (lag_row cet (Some earlier) later) = true <->
   1 <= epoch (at_min 10 - at_min 0) / 60 <= 60 /\
   ((47.0 : R) <> 47.01 \/ (8 : R) <> 8)).
Proof.
  intros earlier later.
  assert (Hz : forall t, cet t = (t + 3600000000)%Z) by reflexivity.
  split; [exact Hz|].
  exact (in_trip_constant_offset cet 3600000000 earlier later Hz).
Defined.

Section AnyException.

Variables zurich localize cast_timestamp : Z -> Z.

(** X3: whichever call of a run raises, the destination keeps the
    rows it had. *)
Theorem any_exception_commits_nothing
        (f : faults) (now : Z) (w w' : world) (e : string) :
  handler_body zurich localize cast_timestamp f now w = (w', Raise e) ->
  all_trips w' = all_trips w.
Proof.
  rewrite handler_body_cases.
  destruct (connect_source f); [intros E; now inversion E|].
  destruct (connect_dest f); [intros E; now inversion E|].
  destruct (create_table_execute f); [intros E; now inversion E|].
  destruct (create_table_commit f); [intros E; now inversion E|].
  destruct (extract_and_load_data _ _ _ _ _ _) as [w1 r] eqn:Hrun.
  intros E; inversion E; subst.
  apply extract_and_load_data_raise in Hrun. exact Hrun.
Qed.

End AnyException.

Lemma any_exception_commits_nothing_witness :
  handler_body cet localize_cet session_utc (extract_fails connection_lost)
               now_jan16 (world_of v1_pings) =
    (reset_txn (world_of v1_pings), Raise connection_lost) /\
  all_trips (reset_txn (world_of v1_pings)) = all_trips (world_of v1_pings).
Proof.
  assert (H : handler_body cet localize_cet session_utc
                           (extract_fails connection_lost)
                           now_jan16 (world_of v1_pings) =
              (reset_txn (world_of v1_pings), Raise connection_lost))
    by reflexivity.
  split; [exact H|].
  exact (any_exception_commits_nothing cet localize_cet session_utc _ _ _ _ _ H).
Defined.

(** ** Sending the same page twice *)

Lemma arbiter_key_eqb_eq (k1 k2 : string * Z) :
  arbiter_key_eqb k1 k2 = true <-> k1 = k2.
Proof.
  destruct k1 as [b1 s1], k2 as [b2 s2]. unfold arbiter_key_eqb; simpl.
  rewrite andb_true_iff, String.eqb_eq, Z.eqb_eq. split.
  - now intros [-> ->].
  - intros E; inversion E; auto.
Qed.

Lemma conflict_key (t : Trip.t) (r : Row.t) :
  conflict t r = true <-> arbiter_key (Row.trip r) = arbiter_key t.
Proof. exact (arbiter_key_eqb_eq (arbiter_key (Row.trip r)) (arbiter_key t)). Qed.

Lemma existsb_false_In {A : Type} (f : A -> bool) (l : list A) (x : A) :
  existsb f l = false -> In x l -> f x = false.
Proof.
  intros H Hx. destruct (f x) eqn:E; [|reflexivity].
  assert (existsb f l = true) by (apply existsb_exists; eauto). congruence.
Qed.

(** After the upsert of [t] the rows with its key hold [t]. *)
Lemma upsert_rows_of_key (rows : list Row.t) (id : Z) (t : Trip.t) (r' : Row.t) :
  In r' (upsert rows id t) -> conflict t r' = true -> Row.trip r' = t.
Proof.
  unfold upsert. destruct (existsb (conflict t) rows) eqn:E.
  - rewrite in_map_iff. intros [r [<- Hr]].
    destruct (conflict t r) eqn:C.
    + intros _. now rewrite do_update_overwrites.
    + congruence.
  - rewrite in_app_iff. intros [Hr|[<-|[]]] C; [|reflexivity].
    rewrite (existsb_false_In _ _ _ E Hr) in C. discriminate.
Qed.

(** The upsert of [t] leaves the rows of another key as they are. *)
Lemma upsert_other_key (rows : list Row.t) (id : Z) (t t' : Trip.t) (r' : Row.t) :
  arbiter_key t' <> arbiter_key t ->
  (forall r, In r rows -> conflict t' r = true -> Row.trip r = t') ->
  In r' (upsert rows id t) -> conflict t' r' = true -> Row.trip r' = t'.
Proof.
  intros Hne Hrows. unfold upsert. destruct (existsb (conflict t) rows).
  - rewrite in_map_iff. intros [r [<- Hr]].
    destruct (conflict t r) eqn:C; [|auto].
    rewrite conflict_do_update. intros C'.
    apply conflict_key in C, C'. congruence.
  - rewrite in_app_iff. intros [Hr|[<-|[]]] C; [auto|].
    apply conflict_key in C. simpl in C. congruence.
Qed.

Lemma upsert_fixed (rows : list Row.t) (id : Z) (t : Trip.t) :
  existsb (conflict t) rows = true ->
  (forall r, In r rows -> conflict t r = true -> Row.trip r = t) ->
  upsert rows id t = rows.
Proof.
  intros E H. unfold upsert. rewrite E.
  rewrite <- (map_id rows) at 2. apply map_ext_in. intros r Hr.
  destruct (conflict t r) eqn:C; [|reflexivity].
  rewrite do_update_overwrites by assumption.
  rewrite <- (H r Hr C). now destruct r.
Qed.

(** What a statement that raised nothing has established: the rows
    with the key of a proposed row hold that row. *)
Lemma insert_on_conflict_holds (page : list Trip.t) :
  forall rows seq affected seq' rows' (done : list Trip.t),
    (forall t, In t done -> In (arbiter_key t) affected) ->
    (forall t r, In t done -> In r rows -> conflict t r = true -> Row.trip r = t) ->
    insert_on_conflict rows seq affected page = (seq', Return rows') ->
    forall t r, In t (done ++ page) -> In r rows' -> conflict t r = true ->
                Row.trip r = t.
Proof.
  induction page as [|t0 page IH];
    intros rows seq affected seq' rows' done Hdone Hrows; simpl.
  - intros E; inversion E; subst. rewrite app_nil_r. exact Hrows.
  - destruct (existsb _ affected) eqn:Ha; [discriminate|].
    intros E t r Ht.
    eapply (IH _ _ _ _ _ (done ++ [t0])); [| |exact E|].
    + intros t1 Ht1. apply in_app_iff in Ht1. destruct Ht1 as [H|[<-|[]]].
      * right. auto.
      * now left.
    + intros t1 r1 Ht1 Hr1. apply in_app_iff in Ht1.
      destruct Ht1 as [H|[<-|[]]].
      * apply upsert_other_key with (rows := rows) (id := (seq + 1)%Z) (t := t0);
          [|intros r2; apply Hrows; exact H|exact Hr1].
        intros Heq. apply Hdone in H. rewrite Heq in H.
        apply (existsb_false_In _ _ _ Ha) in H.
        assert (arbiter_key_eqb (arbiter_key t0) (arbiter_key t0) = true)
          by now apply arbiter_key_eqb_eq.
        congruence.
      * apply upsert_rows_of_key with (rows := rows) (id := (seq + 1)%Z).
        exact Hr1.
    + rewrite <- app_assoc. exact Ht.
Qed.

Lemma insert_on_conflict_again (page : list Trip.t) :
  forall rows0 seq0 affected seq1 rows1,
    insert_on_conflict rows0 seq0 affected page = (seq1, Return rows1) ->
    forall rows seq,
      (forall t, In t page -> existsb (conflict t) rows = true) ->
      (forall t r, In t page -> In r rows -> conflict t r = true -> Row.trip r = t) ->
      insert_on_conflict rows seq affected page =
      ((seq + Z.of_nat (List.length page))%Z, Return rows).
Proof.
  induction page as [|t0 page IH]; intros rows0 seq0 affected seq1 rows1; simpl.
  - intros _ rows seq _ _. now rewrite Z.add_0_r.
  - destruct (existsb _ affected); [discriminate|].
    intros E rows seq Hkeys Hrows.
    rewrite upsert_fixed by (auto; intros r; apply Hrows; now left).
    erewrite IH; [|exact E| |]; auto.
    f_equal. lia.
Qed.

(** X4: a page that was merged is merged again without a change: the
    second statement updates every row of the page with the values it
    holds, inserts no row, and only the sequence moves on. *)
Theorem insert_on_conflict_idempotent
        (rows : list Row.t) (seq seq1 : Z) (page : list Trip.t)
        (rows1 : list Row.t) :
  insert_on_conflict rows seq [] page = (seq1, Return rows1) ->
  insert_on_conflict rows1 seq1 [] page =
  ((seq1 + Z.of_nat (List.length page))%Z, Return rows1).
Proof.
  intros E. eapply insert_on_conflict_again; [exact E| |].
  - intros t Ht. apply insert_on_conflict_keys in E as [_ H]. auto.
  - intros t r Ht.
    apply (insert_on_conflict_holds page rows seq [] seq1 rows1 []);
      try assumption; try contradiction.
Qed.

Lemma insert_on_conflict_idempotent_witness :
  insert_on_conflict [old_row] 7 [] [v1_trip] =
    (8%Z, Return [old_row; inserted 8 v1_trip]) /\
  insert_on_conflict [old_row; inserted 8 v1_trip] 8 [] [v1_trip] =
    (9%Z, Return [old_row; inserted 8 v1_trip]).
Proof.
  assert (H : insert_on_conflict [old_row] 7 [] [v1_trip] =
              (8%Z, Return [old_row; inserted 8 v1_trip])) by reflexivity.
  split; [exact H|].
  exact (insert_on_conflict_idempotent _ _ _ _ _ H).
Defined.

(** ** The scenarios of the spec, end to end *)

(** Vehicle V1 with pings at 0, 10, 25 and 40 minutes, each 0.01
    degrees north of the one before: the query returns one trip of
    three segments and 40 minutes, and a run on a destination without
    it inserts it with the next [trip_id]. *)
Theorem v1_scenario :
  extract_query cet window_start window_end v1_pings = [v1_trip] /\
  Trip.segment_count v1_trip = 3%Z /\
  Trip.total_duration v1_trip = 40 /\
  Trip.trip_start v1_trip = cet (at_min 0) /\
  Trip.trip_end v1_trip = cet (at_min 40) /\
  lambda_handler cet localize_cet session_utc no_faults now_jan16
                 (world_of v1_pings) =
    (mk_world v1_pings [old_row; inserted 8 v1_trip] 8
              [old_row; inserted 8 v1_trip], success).
Proof.
  split; [exact v1_query|]. repeat (split; [reflexivity|]). exact v1_run.
Qed.

(** Vehicle V2 with two pings 90 minutes apart: the pair is a
    boundary, there is no candidate and no trip. *)
Theorem v2_scenario :
  map (in_trip) (trip_data cet window_start window_end v2_pings) = [false; false] /\
  trip_candidates cet window_start window_end v2_pings = [] /\
  extract_query cet window_start window_end v2_pings = [].
Proof.
  split; [|split].
  - eval_segments. reflexivity.
  - eval_candidates. reflexivity.
  - exact v2_query.
Qed.

(** The run of the first scenario, done again on the destination
    it left: the trip of V1 is found again and merged into its row;
    the table has the same two rows, and the sequence has moved. *)
Theorem v1_rerun :
  lambda_handler cet localize_cet session_utc no_faults now_jan16 world_with_v1 =
  (mk_world v1_pings [old_row; inserted 8 v1_trip] 9
            [old_row; inserted 8 v1_trip], success).
Proof.
  unfold lambda_handler. rewrite handler_body_cases.
  cbn [no_faults connect_source connect_dest create_table_execute create_table_commit].
  rewrite extract_and_load_data_cases.
  cbn [no_faults extract_execute load_commit].
  destruct window_of_now_jan16 as [-> ->].
  change (bike_status (reset_txn world_with_v1)) with v1_pings.
  rewrite v1_query.
  change (pages [v1_trip]) with [[v1_trip]].
  reflexivity.
Qed.

(** ** A change of the clock between two pings *)

(** X11: when Zurich's clock moves by [jump] between the two pings of
    a pair, the pair is classified by the time between the pings plus
    [jump]. *)
Theorem in_trip_across_clock_change
        (zurich : Z -> Z) (jump : Z) (earlier later : Ping.t) :
  (zurich (Ping.timestamp later) - zurich (Ping.timestamp earlier) =
   Ping.timestamp later - Ping.timestamp earlier + jump)%Z ->
  (in_trip (lag_row zurich (Some earlier) later) = true <->
   1 <= epoch (Ping.timestamp later - Ping.timestamp earlier + jump) / 60 <= 60 /\
   (Ping.lat earlier <> Ping.lat later \/ Ping.lon earlier <> Ping.lon later)).
Proof.
  intros Hz. unfold in_trip, lag_row; simpl.
  now rewrite andb_true_iff, between_minutes, moved_iff, Hz.
Qed.

(** Two pings 30 minutes apart, at 00:50 and 01:20 UTC on 2024-03-31:
    on Zurich's clock they are 90 minutes apart, and the pair is a
    boundary. *)
Lemma in_trip_across_clock_change_witness :
  let earlier := Ping.mk "V1" "P1" 47.0 8 (march31 - 10 * 60 * 1000000) in
  let later := Ping.mk "V1" "P1" 47.01 8 (march31 + 20 * 60 * 1000000) in
  epoch (Ping.timestamp later - Ping.timestamp earlier) / 60 = 30 /\
  epoch (zurich_spring (Ping.timestamp later) -
         zurich_spring (Ping.timestamp earlier)) / 60 = 90 /\
  in_trip (lag_row zurich_spring (Some earlier) later) = false.
Proof.
  intros earlier later.
  split; [unfold epoch; cbn; lra|]. split; [unfold epoch; cbn; lra|].
  apply not_true_is_false. intros H.
  apply (in_trip_across_clock_change zurich_spring (3600 * 1000000) earlier later)
    in H; [|reflexivity].
  destruct H as [H _]. unfold epoch in H. cbn in H. lra.
Defined.

(** C4: the query does not classify a pair by its elapsed minutes
    when Zurich's clock changes between the two pings.  On 2024-03-31
    two pings 30 minutes apart, with different positions, are the
    rows of a vehicle in the window: the claim has the pair in-trip,
    the query measures 90 minutes on the clock and has it a boundary.
    On 2024-10-27 two pings 90 minutes apart are a boundary by the
    claim; the query measures 30 minutes and has the pair in-trip. *)
Theorem in_trip_on_clock_change :
  spec_elapsed_minutes spring_earlier spring_later = 30 /\
  spec_in_trip spring_earlier spring_later /\
  trip_data zurich_spring (march31 - day) (march31 + day)
            [spring_earlier; spring_later] =
    [lag_row zurich_spring None spring_earlier;
     lag_row zurich_spring (Some spring_earlier) spring_later] /\
  option_map Segment.duration_minutes
             (segment_select (lag_row zurich_spring (Some spring_earlier) spring_later))
    = Some 90 /\
  in_trip (lag_row zurich_spring (Some spring_earlier) spring_later) = false /\
  spec_elapsed_minutes autumn_earlier autumn_later = 90 /\
  ~ spec_in_trip autumn_earlier autumn_later /\
  trip_data zurich_autumn (october27 - day) (october27 + day)
            [autumn_earlier; autumn_later] =
    [lag_row zurich_autumn None autumn_earlier;
     lag_row zurich_autumn (Some autumn_earlier) autumn_later] /\
  option_map Segment.duration_minutes
             (segment_select (lag_row zurich_autumn (Some autumn_earlier) autumn_later))
    = Some 30 /\
  in_trip (lag_row zurich_autumn (Some autumn_earlier) autumn_later) = true.
Proof.
  assert (Hs : spec_elapsed_minutes spring_earlier spring_later = 30)
    by (unfold spec_elapsed_minutes, epoch; cbn; lra).
  assert (Ha : spec_elapsed_minutes autumn_earlier autumn_later = 90)
    by (unfold spec_elapsed_minutes, epoch; cbn; lra).
  pose proof (in_trip_iff zurich_spring spring_earlier spring_later) as Hspring.
  pose proof (in_trip_iff zurich_autumn autumn_earlier autumn_later) as Hautumn.
  cbn zeta in Hspring, Hautumn.
  destruct Hspring as [Hsd [Hsi _]]. destruct Hautumn as [Had [Hai _]].
  split; [exact Hs|].
  split; [split; [rewrite Hs; lra|left; cbn; lra]|].
  split; [reflexivity|].
  split; [rewrite Hsd; f_equal; unfold epoch; cbn; lra|].
  split.
  { apply not_true_is_false. intros H. apply Hsi in H.
    destruct H as [H _]. unfold epoch in H. cbn in H. lra. }
  split; [exact Ha|].
  split; [intros [H _]; rewrite Ha in H; lra|].
  split; [reflexivity|].
  split; [rewrite Had; f_equal; unfold epoch; cbn; lra|].
  apply Hai. split; [unfold epoch; cbn; lra|left; cbn; lra].
Qed.

(** ** What every candidate and every trip satisfies *)

(** A row of [trip_segments]: an in-trip row of [trip_data] and what
    was selected from it. *)
Lemma trip_segments_In (rows : list TripData.t) (s : Segment.t) :
  In s (trip_segments rows) <->
  exists r, In r rows /\ in_trip r = true /\ segment_select r = Some s.
Proof.
  unfold trip_segments. rewrite in_flat_map. split.
  - intros [r [Hr Hs]]. exists r. destruct (in_trip r); [|contradiction].
    destruct (segment_select r) as [s'|]; [|contradiction].
    destruct Hs as [<-|[]]. auto.
  - intros [r [Hr [Ht Hs]]]. exists r. rewrite Ht, Hs. split; [assumption|now left].
Qed.

Lemma trip_segments_bounds (rows : list TripData.t) (s : Segment.t) :
  In s (trip_segments rows) ->
  1 <= Segment.duration_minutes s <= 60 /\
  (Segment.start_time s < Segment.end_time s)%Z /\
  (Segment.start_lat s <> Segment.end_lat s \/
   Segment.start_lon s <> Segment.end_lon s) /\
  0 <= Segment.distance_km s.
Proof.
  rewrite trip_segments_In. intros [r [_ [Ht Hs]]].
  unfold in_trip in Ht. unfold segment_select in Hs.
  destruct (TripData.prev_time r) as [pt|]; [|discriminate].
  destruct (TripData.prev_lat r) as [pla|]; [|discriminate].
  destruct (TripData.prev_lon r) as [plo|]; [|discriminate].
  inversion Hs; subst; clear Hs. simpl.
  apply andb_true_iff in Ht. destruct Ht as [Hb Hm].
  apply between_minutes in Hb. apply moved_iff in Hm.
  split; [exact Hb|]. split; [|split; [exact Hm|apply haversine_km_nonneg]].
  unfold epoch in Hb.
  assert (0 < IZR (TripData.local_time r - pt)) by lra.
  apply lt_IZR in H. lia.
Qed.

Lemma min_Z_le (l : list Z) : forall x, (min_Z x l <= x)%Z.
Proof.
  unfold min_Z. induction l as [|y l IH]; intros x; simpl; [lia|].
  specialize (IH (Z.min x y)). lia.
Qed.

Lemma max_Z_ge (l : list Z) : forall x, (x <= max_Z x l)%Z.
Proof.
  unfold max_Z. induction l as [|y l IH]; intros x; simpl; [lia|].
  specialize (IH (Z.max x y)). lia.
Qed.

Lemma sum_R_bounds (lo hi : R) (l : list R) :
  Forall (fun x => lo <= x <= hi) l ->
  lo * INR (List.length l) <= sum_R l <= hi * INR (List.length l).
Proof.
  induction 1 as [|x l Hx _ IH].
  - simpl. lra.
  - change (sum_R (x :: l)) with (x + sum_R l).
    change (List.length (x :: l)) with (S (List.length l)).
    rewrite S_INR. lra.
Qed.

Lemma sum_R_nonneg (l : list R) : Forall (fun x => 0 <= x) l -> 0 <= sum_R l.
Proof.
  induction 1 as [|x l Hx _ IH]; simpl; [lra|].
  change (fold_right Rplus 0 l) with (sum_R l). lra.
Qed.

(** X8: every candidate of every window has at least one segment,
    starts before it ends, has a total duration between 1 and 60
    minutes per segment and a distance that is not negative; so a trip
    that the query returns has between 2 and 60 segments. *)
Theorem candidate_bounds (zurich : Z -> Z) (start_date end_date : Z)
        (bike_status : list Ping.t) :
  Forall (fun t =>
            (1 <= Trip.segment_count t)%Z /\
            (Trip.trip_start t < Trip.trip_end t)%Z /\
            IZR (Trip.segment_count t) <= Trip.total_duration t
              <= 60 * IZR (Trip.segment_count t) /\
            0 <= Trip.total_distance t)
         (trip_candidates zurich start_date end_date bike_status) /\
  Forall (fun t => (2 <= Trip.segment_count t <= 60)%Z)
         (extract_query zurich start_date end_date bike_status).
Proof.
  assert (Hcand :
    Forall (fun t =>
              (1 <= Trip.segment_count t)%Z /\
              (Trip.trip_start t < Trip.trip_end t)%Z /\
              IZR (Trip.segment_count t) <= Trip.total_duration t
                <= 60 * IZR (Trip.segment_count t) /\
              0 <= Trip.total_distance t)
           (trip_candidates zurich start_date end_date bike_status)).
  { apply Forall_forall. intros t Ht. unfold trip_candidates in Ht.
    apply trip_aggregates_In in Ht. destruct Ht as [s [rest [Hg ->]]].
    set (segments := trip_segments _) in Hg.
    assert (Hall : Forall (fun x => In x segments) (s :: rest)).
    { rewrite <- Hg. apply Forall_forall. intros x Hx.
      now apply group_of_In in Hx. }
    assert (Hb : forall x, In x (s :: rest) ->
                 1 <= Segment.duration_minutes x <= 60 /\
                 (Segment.start_time x < Segment.end_time x)%Z /\
                 0 <= Segment.distance_km x).
    { intros x Hx. rewrite Forall_forall in Hall.
      destruct (trip_segments_bounds _ _ (Hall x Hx)) as [H1 [H2 [_ H3]]]. auto. }
    unfold aggregate. cbn [Trip.segment_count Trip.trip_start Trip.trip_end
                           Trip.total_duration Trip.total_distance].
    split; [simpl; lia|]. split; [|split].
    - pose proof (min_Z_le (map Segment.start_time rest) (Segment.start_time s)).
      pose proof (max_Z_ge (map Segment.end_time rest) (Segment.end_time s)).
      destruct (Hb s (or_introl eq_refl)) as [_ [Hlt _]]. lia.
    - rewrite <- INR_IZR_INZ.
      rewrite <- (length_map Segment.duration_minutes (s :: rest)).
      pose proof (sum_R_bounds 1 60 (map Segment.duration_minutes (s :: rest))) as Hs.
      rewrite Rmult_1_l in Hs. apply Hs.
      apply Forall_forall. intros x Hx. apply in_map_iff in Hx.
      destruct Hx as [y [<- Hy]]. apply (Hb y Hy).
    - apply sum_R_nonneg. apply Forall_forall. intros x Hx.
      apply in_map_iff in Hx. destruct Hx as [y [<- Hy]]. apply (Hb y Hy). }
  split; [exact Hcand|].
  apply Forall_forall. intros t Ht. apply extract_query_In in Ht.
  destruct Ht as [Hc Ha]. apply accepted_iff in Ha.
  rewrite Forall_forall in Hcand.
  destruct (Hcand t Hc) as [_ [_ [[Hlo _] _]]].
  destruct Ha as [[_ Hd] [_ Hn]]. split; [exact Hn|].
  apply le_IZR. lra.
Qed.

(** ** Where a candidate comes from *)

Lemma lag_rows_inv (zurich : Z -> Z) (l : list Ping.t) :
  forall (prev : option Ping.t) (r : TripData.t),
    In r (lag_rows zurich prev l) ->
    exists o p, r = lag_row zurich o p /\ In p l /\
                forall q, o = Some q -> In q l \/ prev = Some q.
Proof.
  induction l as [|p l IH]; intros prev r; simpl; [contradiction|].
  intros [<-|Hr].
  - exists prev, p. split; [reflexivity|]. split; [now left|]. auto.
  - apply IH in Hr. destruct Hr as [o [p' [-> [Hp Ho]]]].
    exists o, p'. split; [reflexivity|]. split; [now right|].
    intros q Hq. destruct (Ho q Hq) as [H|H]; [left; now right|].
    inversion H; subst. left. now left.
Qed.

Lemma partition_of_In (bike : string) (rows : list Ping.t) (p : Ping.t) :
  In p (partition_of bike rows) <-> In p rows /\ Ping.bike_id p = bike.
Proof.
  unfold partition_of. now rewrite sort_by_In, filter_In, String.eqb_eq.
Qed.

Lemma trip_data_inv (zurich : Z -> Z) (start_date end_date : Z)
      (bike_status : list Ping.t) (r : TripData.t) :
  In r (trip_data zurich start_date end_date bike_status) ->
  exists o p,
    r = lag_row zurich o p /\
    In p bike_status /\ in_window start_date end_date p = true /\
    forall q, o = Some q ->
              In q bike_status /\ in_window start_date end_date q = true /\
              Ping.bike_id q = Ping.bike_id p.
Proof.
  unfold trip_data. rewrite in_flat_map. intros [bike [_ Hr]].
  apply lag_rows_inv in Hr. destruct Hr as [o [p [-> [Hp Ho]]]].
  apply partition_of_In in Hp. destruct Hp as [Hp Hb].
  apply filter_In in Hp. destruct Hp as [Hp Hw].
  exists o, p. repeat split; try assumption.
  - destruct (Ho q H) as [Hq|Hq]; [|discriminate].
    apply partition_of_In in Hq. destruct Hq as [Hq _].
    now apply filter_In in Hq.
  - destruct (Ho q H) as [Hq|Hq]; [|discriminate].
    apply partition_of_In in Hq. destruct Hq as [Hq _].
    now apply filter_In in Hq.
  - destruct (Ho q H) as [Hq|Hq]; [|discriminate].
    apply partition_of_In in Hq. destruct Hq as [_ Hq]. congruence.
Qed.

(** A segment is made of two pings of one vehicle in the window. *)
Lemma trip_segments_pings (zurich : Z -> Z) (start_date end_date : Z)
      (bike_status : list Ping.t) (s : Segment.t) :
  In s (trip_segments (trip_data zurich start_date end_date bike_status)) ->
  exists q p,
    In q bike_status /\ in_window start_date end_date q = true /\
    In p bike_status /\ in_window start_date end_date p = true /\
    Ping.bike_id q = Segment.bike_id s /\ Ping.bike_id p = Segment.bike_id s /\
    Ping.provider_id p = Segment.provider_id s /\
    Segment.start_time s = zurich (Ping.timestamp q) /\
    Segment.end_time s = zurich (Ping.timestamp p).
Proof.
  rewrite trip_segments_In. intros [r [Hr [_ Hs]]].
  apply trip_data_inv in Hr. destruct Hr as [o [p [-> [Hp [Hw Ho]]]]].
  destruct o as [q|]; [|discriminate].
  destruct (Ho q eq_refl) as [Hq [Hwq Hb]].
  unfold segment_select, lag_row in Hs. simpl in Hs. inversion Hs; subst; simpl.
  exists q, p. repeat split; assumption.
Qed.

Lemma min_Z_In (l : list Z) : forall x, In (min_Z x l) (x :: l).
Proof.
  unfold min_Z. induction l as [|y l IH]; intros x; simpl; [now left|].
  destruct (IH (Z.min x y)) as [H|H].
  - rewrite <- H. destruct (Z.min_spec x y) as [[_ ->]|[_ ->]]; auto.
  - right. now right.
Qed.

Lemma max_Z_In (l : list Z) : forall x, In (max_Z x l) (x :: l).
Proof.
  unfold max_Z. induction l as [|y l IH]; intros x; simpl; [now left|].
  destruct (IH (Z.max x y)) as [H|H].
  - rewrite <- H. destruct (Z.max_spec x y) as [[_ ->]|[_ ->]]; auto.
  - right. now right.
Qed.

(** X9: a candidate starts and ends at pings of its vehicle inside
    the window: [trip_start] and [trip_end] are the Zurich times of
    two rows of [bike_status] with its [bike_id] and a timestamp in
    the window, and its [provider_id] is that of such a row. *)
Theorem candidate_endpoints (zurich : Z -> Z) (start_date end_date : Z)
        (bike_status : list Ping.t) :
  Forall (fun t =>
            exists q p,
              In q bike_status /\ in_window start_date end_date q = true /\
              In p bike_status /\ in_window start_date end_date p = true /\
              Ping.bike_id q = Trip.bike_id t /\
              Ping.bike_id p = Trip.bike_id t /\
              Trip.trip_start t = zurich (Ping.timestamp q) /\
              Trip.trip_end t = zurich (Ping.timestamp p))
         (trip_candidates zurich start_date end_date bike_status).
Proof.
  apply Forall_forall. intros t Ht. unfold trip_candidates in Ht.
  apply trip_aggregates_In in Ht. destruct Ht as [s [rest [Hg ->]]].
  set (segments := trip_segments _) in Hg.
  assert (Hall : forall x, In x (s :: rest) ->
                           In x segments /\ Segment.bike_id x = Segment.bike_id s).
  { intros x Hx. rewrite <- Hg in Hx. apply group_of_In in Hx.
    destruct Hx as [Hx Hk]. split; [assumption|].
    rewrite trip_key_aggregate in Hk. unfold segment_key in Hk. congruence. }
  pose proof (min_Z_In (map Segment.start_time rest) (Segment.start_time s)) as Hmin.
  pose proof (max_Z_In (map Segment.end_time rest) (Segment.end_time s)) as Hmax.
  change (Segment.start_time s :: map Segment.start_time rest)
    with (map Segment.start_time (s :: rest)) in Hmin.
  change (Segment.end_time s :: map Segment.end_time rest)
    with (map Segment.end_time (s :: rest)) in Hmax.
  apply in_map_iff in Hmin. destruct Hmin as [s1 [Hs1 Hin1]].
  apply in_map_iff in Hmax. destruct Hmax as [s2 [Hs2 Hin2]].
  destruct (Hall s1 Hin1) as [Hseg1 Hb1]. destruct (Hall s2 Hin2) as [Hseg2 Hb2].
  apply trip_segments_pings in Hseg1.
  destruct Hseg1 as [q [_ [Hq [Hwq [_ [_ [Hbq [_ [_ [Hsq _]]]]]]]]]].
  apply trip_segments_pings in Hseg2.
  destruct Hseg2 as [_ [p [_ [_ [Hp [Hwp [_ [Hbp [_ [_ Hep]]]]]]]]]].
  exists q, p. unfold aggregate; simpl.
  repeat split; try assumption; congruence.
Qed.

(** ** Segments and pings, counted *)

Lemma trip_segments_app (l1 l2 : list TripData.t) :
  trip_segments (l1 ++ l2) = trip_segments l1 ++ trip_segments l2.
Proof. unfold trip_segments. apply flat_map_app. Qed.

Lemma trip_segments_cons_length (r : TripData.t) (rows : list TripData.t) :
  (List.length (trip_segments (r :: rows)) <= S (List.length (trip_segments rows)))%nat.
Proof.
  change (r :: rows) with ([r] ++ rows). rewrite trip_segments_app, length_app.
  unfold trip_segments at 1. simpl.
  destruct (in_trip r); [|simpl; lia].
  destruct (segment_select r); simpl; lia.
Qed.

Lemma trip_segments_lag_rows_length (zurich : Z -> Z) (l : list Ping.t) :
  forall prev,
    (List.length (trip_segments (lag_rows zurich prev l)) <= List.length l)%nat.
Proof.
  induction l as [|p l IH]; intros prev; cbn [lag_rows List.length];
    [reflexivity|].
  pose proof (trip_segments_cons_length (lag_row zurich prev p)
                                        (lag_rows zurich (Some p) l)).
  specialize (IH (Some p)). lia.
Qed.

(** The first row of a partition has no predecessor and gives no
    segment. *)
Lemma trip_segments_partition_length (zurich : Z -> Z) (l : list Ping.t) :
  (List.length (trip_segments (lag_rows zurich None l)) <= List.length l - 1)%nat.
Proof.
  destruct l as [|p l]; cbn [lag_rows List.length]; [reflexivity|].
  change (lag_row zurich None p :: lag_rows zurich (Some p) l)
    with ([lag_row zurich None p] ++ lag_rows zurich (Some p) l).
  rewrite trip_segments_app, length_app.
  pose proof (trip_segments_lag_rows_length zurich l (Some p)).
  change (trip_segments [lag_row zurich None p]) with (@nil Segment.t).
  cbn [List.length app Nat.sub]. lia.
Qed.

Lemma trip_segments_lag_rows_bike (zurich : Z -> Z) (bike : string)
      (l : list Ping.t) (prev : option Ping.t) (s : Segment.t) :
  (forall p, In p l -> Ping.bike_id p = bike) ->
  In s (trip_segments (lag_rows zurich prev l)) -> Segment.bike_id s = bike.
Proof.
  intros Hl Hs. apply trip_segments_In in Hs. destruct Hs as [r [Hr [_ Hs]]].
  apply lag_rows_inv in Hr. destruct Hr as [o [p [-> [Hp _]]]].
  unfold segment_select, lag_row in Hs. simpl in Hs.
  destruct o; [|discriminate]. inversion Hs; subst; simpl. auto.
Qed.

Lemma filter_nil_iff {A : Type} (f : A -> bool) (l : list A) :
  (forall x, In x l -> f x = false) -> filter f l = [].
Proof.
  induction l as [|x l IH]; intros H; simpl; [reflexivity|].
  rewrite (H x (or_introl eq_refl)). apply IH. intros y Hy. apply H. now right.
Qed.

Lemma filter_length_mono {A : Type} (f g : A -> bool) (l : list A) :
  (forall x, f x = true -> g x = true) ->
  (List.length (filter f l) <= List.length (filter g l))%nat.
Proof.
  intros H. induction l as [|x l IH]; simpl; [reflexivity|].
  destruct (f x) eqn:E.
  - rewrite (H x E). simpl. lia.
  - destruct (g x); simpl; lia.
Qed.

Lemma filter_length_total {A : Type} (f : A -> bool) (l : list A) :
  (List.length (filter f l) <= List.length l)%nat.
Proof.
  induction l as [|x l IH]; simpl; [reflexivity|].
  destruct (f x); simpl; lia.
Qed.

Lemma segments_of_bike_length (zurich : Z -> Z) (bike : string)
      (rows : list Ping.t) (bikes : list string) :
  NoDup bikes ->
  (List.length
     (filter (fun s => String.eqb (Segment.bike_id s) bike)
             (trip_segments
                (flat_map (fun b => lag_rows zurich None (partition_of b rows))
                          bikes)))
   <= List.length (partition_of bike rows) - 1)%nat.
Proof.
  induction 1 as [|b bikes Hnotin Hnodup IH]; simpl; [lia|].
  rewrite trip_segments_app, filter_app, length_app.
  destruct (String.eqb_spec b bike) as [->|Hne].
  - assert (Hrest :
      filter (fun s => String.eqb (Segment.bike_id s) bike)
             (trip_segments
                (flat_map (fun b => lag_rows zurich None (partition_of b rows))
                          bikes)) = []).
    { apply filter_nil_iff. intros s Hs. apply trip_segments_In in Hs.
      destruct Hs as [r [Hr [Ht Hs]]]. apply in_flat_map in Hr.
      destruct Hr as [b' [Hb' Hr]].
      assert (Hsb : Segment.bike_id s = b').
      { apply (trip_segments_lag_rows_bike zurich b' (partition_of b' rows) None).
        - intros p Hp. now apply partition_of_In in Hp.
        - apply trip_segments_In. eauto. }
      apply String.eqb_neq. intros E. apply Hnotin. congruence. }
    rewrite Hrest. simpl.
    pose proof (trip_segments_partition_length zurich (partition_of bike rows)).
    pose proof (filter_length_total
                  (fun s => String.eqb (Segment.bike_id s) bike)
                  (trip_segments (lag_rows zurich None (partition_of bike rows)))).
    lia.
  - assert (Hfirst :
      filter (fun s => String.eqb (Segment.bike_id s) bike)
             (trip_segments (lag_rows zurich None (partition_of b rows))) = []).
    { apply filter_nil_iff. intros s Hs. apply String.eqb_neq.
      rewrite (trip_segments_lag_rows_bike zurich b (partition_of b rows) None s);
        [assumption| |assumption].
      intros p Hp. now apply partition_of_In in Hp. }
    rewrite Hfirst. simpl. exact IH.
Qed.

(** X10: a candidate has fewer segments than its vehicle has pings in
    the window, so a vehicle of a returned trip has at least three
    pings there; a vehicle with one or two yields no trip. *)
Theorem segments_fewer_than_pings (zurich : Z -> Z) (start_date end_date : Z)
        (bike_status : list Ping.t) :
  let pings_of := fun bike =>
    partition_of bike (filter (in_window start_date end_date) bike_status) in
  Forall (fun t => (Trip.segment_count t + 1 <=
                    Z.of_nat (List.length (pings_of (Trip.bike_id t))))%Z)
         (trip_candidates zurich start_date end_date bike_status) /\
  Forall (fun t => (3 <= List.length (pings_of (Trip.bike_id t)))%nat)
         (extract_query zurich start_date end_date bike_status).
Proof.
  intros pings_of.
  assert (Hcand :
    Forall (fun t => (Trip.segment_count t + 1 <=
                      Z.of_nat (List.length (pings_of (Trip.bike_id t))))%Z)
           (trip_candidates zurich start_date end_date bike_status)).
  { apply Forall_forall. intros t Ht.
    unfold trip_candidates in Ht.
    apply trip_aggregates_In in Ht. destruct Ht as [s [rest [Hg ->]]].
    rewrite trip_key_aggregate in Hg.
    unfold aggregate. cbn [Trip.segment_count Trip.bike_id].
    pose proof (segments_of_bike_length zurich (Segment.bike_id s)
                  (filter (in_window start_date end_date) bike_status)
                  (nodup string_dec
                     (map Ping.bike_id
                          (filter (in_window start_date end_date) bike_status)))
                  (NoDup_nodup _ _)) as Hlen.
    fold (trip_data zurich start_date end_date bike_status) in Hlen.
    pose proof (filter_length_mono
                  (fun x => group_key_eqb (segment_key x) (segment_key s))
                  (fun x => String.eqb (Segment.bike_id x) (Segment.bike_id s))
                  (trip_segments (trip_data zurich start_date end_date bike_status)))
      as Hmono.
    unfold group_of.
    assert (Hle : (List.length
                     (filter (fun x => group_key_eqb (segment_key x) (segment_key s))
                             (trip_segments
                                (trip_data zurich start_date end_date bike_status)))
                   <= List.length (pings_of (Segment.bike_id s)) - 1)%nat).
    { etransitivity; [apply Hmono|exact Hlen].
      intros x Hx. apply group_key_eqb_eq in Hx.
      apply String.eqb_eq. unfold segment_key in Hx. congruence. }
    unfold group_of in Hg. rewrite Hg in Hle. cbn [List.length] in *. lia. }
  split; [exact Hcand|].
  apply Forall_forall. intros t Ht. apply extract_query_In in Ht.
  destruct Ht as [Hc Ha]. apply accepted_iff in Ha.
  rewrite Forall_forall in Hcand. specialize (Hcand t Hc). lia.
Qed.

(** ** Rows are never deleted *)

Lemma stable_columns_update (t : Trip.t) (r : Row.t) :
  stable_columns (if conflict t r then do_update t r else r) = stable_columns r.
Proof. now destruct (conflict t r). Qed.

Lemma upsert_stable (rows : list Row.t) (id : Z) (t : Trip.t) :
  exists added,
    map stable_columns (upsert rows id t) = map stable_columns rows ++ added.
Proof.
  unfold upsert. destruct (existsb (conflict t) rows).
  - exists []. rewrite app_nil_r, map_map. apply map_ext.
    intros r. apply stable_columns_update.
  - eexists. rewrite map_app. reflexivity.
Qed.

Lemma insert_on_conflict_stable (page : list Trip.t) :
  forall rows seq affected seq' rows',
    insert_on_conflict rows seq affected page = (seq', Return rows') ->
    exists added, map stable_columns rows' = map stable_columns rows ++ added.
Proof.
  induction page as [|t page IH]; intros rows seq affected seq' rows'; simpl.
  - intros E; inversion E; subst. exists []. now rewrite app_nil_r.
  - destruct (existsb _ affected); [discriminate|].
    intros E. apply IH in E. destruct E as [a2 E].
    destruct (upsert_stable rows (seq + 1) t) as [a1 E1].
    exists (a1 ++ a2). now rewrite E, E1, app_assoc.
Qed.

Lemma execute_values_stable (f : faults) (ps : list (list Trip.t)) :
  forall (n : nat) (w w' : world) (r : outcome unit),
    execute_values f n ps w = (w', r) ->
    exists added,
      map stable_columns (dest_txn w') = map stable_columns (dest_txn w) ++ added.
Proof.
  induction ps as [|page ps IH]; intros n w w' r; simpl.
  - unfold ret. intros E; inversion E; subst. exists []. now rewrite app_nil_r.
  - unfold bind. destruct (insert_statement f n page w) as [w1 r1] eqn:Hs.
    assert (H1 : exists added,
               map stable_columns (dest_txn w1) =
               map stable_columns (dest_txn w) ++ added).
    { unfold insert_statement in Hs. destruct (insert_execute f n).
      - inversion Hs; subst. exists []. now rewrite app_nil_r.
      - destruct (insert_on_conflict _ _ _ _) as [seq' [rows'|e]] eqn:Hi;
          inversion Hs; subst; simpl.
        + eapply insert_on_conflict_stable; eauto.
        + exists []. now rewrite app_nil_r. }
    destruct H1 as [a1 E1]. destruct r1 as [[]|e].
    + intros E. apply IH in E. destruct E as [a2 E].
      exists (a1 ++ a2). now rewrite E, E1, app_assoc.
    + intros E; inversion E; subst. eauto.
Qed.

Section Frame.

Variables zurich localize cast_timestamp : Z -> Z.

(** X12: whatever happens in a run, the destination loses no row, and
    every row that was there keeps its place, its [trip_id], its
    [bike_id] and [trip_start], and its enrichment columns; the rows
    that a run adds come after them. *)
Theorem run_keeps_rows (f : faults) (now : Z) (w : world) :
  exists added,
    map stable_columns
        (all_trips (fst (lambda_handler zurich localize cast_timestamp f now w)))
    = map stable_columns (all_trips w) ++ added.
Proof.
  unfold lambda_handler.
  assert (Hsame : forall w' r,
             handler_body zurich localize cast_timestamp f now w = (w', r) ->
             exists added,
               map stable_columns (all_trips w') =
               map stable_columns (all_trips w) ++ added).
  { intros w' r. rewrite handler_body_cases.
    destruct (connect_source f);
      [intros E; inversion E; subst; exists []; now rewrite app_nil_r|].
    destruct (connect_dest f);
      [intros E; inversion E; subst; exists []; now rewrite app_nil_r|].
    destruct (create_table_execute f);
      [intros E; inversion E; subst; exists []; now rewrite app_nil_r|].
    destruct (create_table_commit f);
      [intros E; inversion E; subst; exists []; now rewrite app_nil_r|].
    rewrite extract_and_load_data_cases.
    destruct (extract_execute f);
      [intros E; inversion E; subst; exists []; now rewrite app_nil_r|].
    destruct (extract_query _ _ _ _) as [|t records];
      [intros E; inversion E; subst; exists []; now rewrite app_nil_r|].
    destruct (execute_values _ _ _ _) as [w1 r1] eqn:Hv.
    pose proof (execute_values_frame _ _ _ _ _ _ Hv) as [Ha _].
    apply execute_values_stable in Hv. destruct Hv as [added Hv].
    destruct r1 as [[]|e]; [destruct (load_commit f)|];
      intros E; inversion E; subst; simpl;
      try (exists []; rewrite app_nil_r, Ha; reflexivity).
    exists added. exact Hv. }
  destruct (handler_body zurich localize cast_timestamp f now w) as [w' [[]|e]] eqn:Hb;
    simpl; eapply Hsame; reflexivity.
Qed.

End Frame.

(** ** Running a batch again *)

Lemma stable_columns_settle (batch : list Trip.t) :
  forall r, stable_columns (settle batch r) = stable_columns r.
Proof.
  unfold settle. induction batch as [|t batch IH]; intros r; simpl; [reflexivity|].
  rewrite IH. apply stable_columns_update.
Qed.

Lemma stable_columns_conflict (t : Trip.t) (x y : Row.t) :
  stable_columns x = stable_columns y ->
  conflict t x = conflict t y /\ do_update t x = do_update t y.
Proof.
  unfold stable_columns, arbiter_key, conflict, do_update.
  intros E. inversion E as [[Hid Hb Hs He]]. now rewrite Hid, Hb, Hs, He.
Qed.

Lemma settle_app (b1 b2 : list Trip.t) (r : Row.t) :
  settle (b1 ++ b2) r = settle b2 (settle b1 r).
Proof. unfold settle. apply fold_left_app. Qed.

(** The rows a batch has written are settled: its updates, done
    again, change none of them. *)
Lemma upsert_settled (done : list Trip.t) (rows : list Row.t) (id : Z) (t : Trip.t) :
  (forall r, In r rows -> settle done r = r) ->
  forall r, In r (upsert rows id t) -> settle (done ++ [t]) r = r.
Proof.
  intros Hrows r Hr. rewrite settle_app. unfold settle at 1. simpl.
  destruct (stable_columns_conflict t (settle done r) r
              (stable_columns_settle done r)) as [-> ->].
  unfold upsert in Hr. destruct (existsb (conflict t) rows) eqn:E.
  - apply in_map_iff in Hr. destruct Hr as [r0 [<- Hr0]].
    destruct (conflict t r0) eqn:C.
    + now rewrite conflict_do_update, C.
    + rewrite C. now apply Hrows.
  - apply in_app_iff in Hr. destruct Hr as [Hr|[<-|[]]].
    + rewrite (existsb_false_In _ _ _ E Hr). now apply Hrows.
    + now rewrite conflict_inserted, do_update_inserted.
Qed.

Lemma insert_on_conflict_settled (page : list Trip.t) :
  forall rows seq affected seq' rows' (done : list Trip.t),
    (forall r, In r rows -> settle done r = r) ->
    insert_on_conflict rows seq affected page = (seq', Return rows') ->
    forall r, In r rows' -> settle (done ++ page) r = r.
Proof.
  induction page as [|t page IH]; intros rows seq affected seq' rows' done Hrows;
    simpl.
  - intros E; inversion E; subst. now rewrite app_nil_r.
  - destruct (existsb _ affected); [discriminate|].
    intros E r Hr.
    replace (done ++ t :: page) with ((done ++ [t]) ++ page)
      by now rewrite <- app_assoc.
    eapply IH; [|exact E|exact Hr].
    now apply upsert_settled.
Qed.

Lemma execute_values_settled (f : faults) (ps : list (list Trip.t)) :
  forall (n : nat) (w w' : world) (done : list Trip.t),
    (forall r, In r (dest_txn w) -> settle done r = r) ->
    execute_values f n ps w = (w', Return tt) ->
    forall r, In r (dest_txn w') -> settle (done ++ List.concat ps) r = r.
Proof.
  induction ps as [|page ps IH]; intros n w w' done Hw; simpl.
  - unfold ret. intros E; inversion E; subst. now rewrite app_nil_r.
  - unfold bind.
    destruct (insert_statement f n page w) as [w1 [[]|e]] eqn:Hs; [|discriminate].
    intros E r Hr. rewrite app_assoc. eapply IH; [|exact E|exact Hr].
    unfold insert_statement in Hs.
    destruct (insert_execute f n); [discriminate|].
    destruct (insert_on_conflict _ _ _ _) as [seq' [rows'|e]] eqn:Hi;
      [|discriminate].
    inversion Hs; subst; simpl.
    eapply insert_on_conflict_settled; eauto.
Qed.

Lemma existsb_conflict_settle (batch : list Trip.t) (t : Trip.t) (rows : list Row.t) :
  existsb (conflict t) (map (settle batch) rows) = existsb (conflict t) rows.
Proof.
  induction rows as [|r rows IH]; simpl; [reflexivity|].
  rewrite IH. f_equal.
  apply (stable_columns_conflict t (settle batch r) r), stable_columns_settle.
Qed.

(** A statement that ran on some rows runs on any rows that have the
    keys of its page, and only updates them. *)
Lemma insert_on_conflict_settle (page : list Trip.t) :
  forall rows0 seq0 affected seq1 rows1,
    insert_on_conflict rows0 seq0 affected page = (seq1, Return rows1) ->
    forall rows seq,
      (forall t, In t page -> existsb (conflict t) rows = true) ->
      insert_on_conflict rows seq affected page =
      ((seq + Z.of_nat (List.length page))%Z, Return (map (settle page) rows)).
Proof.
  induction page as [|t page IH]; intros rows0 seq0 affected seq1 rows1; simpl.
  - intros _ rows seq _. rewrite Z.add_0_r, map_id. reflexivity.
  - destruct (existsb _ affected); [discriminate|].
    intros E rows seq Hkeys.
    unfold upsert at 1. rewrite (Hkeys t (or_introl eq_refl)).
    erewrite IH; [|exact E|].
    + rewrite map_map.
      replace (seq + 1 + Z.of_nat (List.length page))%Z
        with (seq + Z.of_nat (S (List.length page)))%Z by lia.
      reflexivity.
    + intros t' Ht'. rewrite existsb_conflict_map_update. apply Hkeys. now right.
Qed.

Lemma execute_values_settle (f : faults) (ps : list (list Trip.t)) :
  forall (n : nat) (w w' : world),
    execute_values f n ps w = (w', Return tt) ->
    forall w0,
      (forall t, In t (List.concat ps) -> existsb (conflict t) (dest_txn w0) = true) ->
      execute_values f n ps w0 =
      (mk_world (bike_status w0) (all_trips w0)
                (all_trips_trip_id_seq w0 + Z.of_nat (List.length (List.concat ps)))
                (map (settle (List.concat ps)) (dest_txn w0)),
       Return tt).
Proof.
  induction ps as [|page ps IH]; intros n w w'; simpl.
  - intros _ w0 _. unfold ret. rewrite Z.add_0_r, map_id. now destruct w0.
  - unfold bind.
    destruct (insert_statement f n page w) as [w1 [[]|e]] eqn:Hs; [|discriminate].
    intros E w0 Hkeys.
    unfold insert_statement in Hs |- *.
    destruct (insert_execute f n); [discriminate|].
    destruct (insert_on_conflict (dest_txn w) _ _ _) as [seq' [rows'|e]] eqn:Hi;
      [|discriminate].
    erewrite insert_on_conflict_settle; [|exact Hi|].
    + erewrite IH; [|exact E|]; simpl.
      * rewrite length_app, Nat2Z.inj_add, Z.add_assoc, map_map.
        f_equal. f_equal. apply map_ext. intros r. now rewrite settle_app.
      * intros t Ht. rewrite existsb_conflict_settle.
        apply Hkeys, in_or_app. now right.
    + intros t Ht. apply Hkeys, in_or_app. now left.
Qed.

Section Rerun.

Variables zurich localize cast_timestamp : Z -> Z.

(** X13: a run that succeeded, started again at the same time on the
    destination it left, with the source as it was, succeeds again
    and leaves the rows of the destination as they are: every trip is
    found again and merged into its row. *)
Theorem rerun_changes_nothing (f : faults) (now : Z) (w w1 : world) :
  lambda_handler zurich localize cast_timestamp f now w = (w1, success) ->
  exists w2,
    lambda_handler zurich localize cast_timestamp f now w1 = (w2, success) /\
    all_trips w2 = all_trips w1 /\ bike_status w2 = bike_status w1.
Proof.
  unfold lambda_handler. rewrite !handler_body_cases.
  destruct (connect_source f); [intros E; inversion E|].
  destruct (connect_dest f); [intros E; inversion E|].
  destruct (create_table_execute f); [intros E; inversion E|].
  destruct (create_table_commit f); [intros E; inversion E|].
  rewrite !extract_and_load_data_cases.
  destruct (extract_execute f); [intros E; inversion E|].
  change (bike_status (reset_txn w)) with (bike_status w).
  destruct (extract_query zurich _ _ (bike_status w)) as [|t records] eqn:Hq.
  - intros E; inversion E; subst; clear E.
    change (bike_status (reset_txn (reset_txn (reset_txn w)))) with (bike_status w).
    rewrite Hq. eexists. split; [reflexivity|]. split; reflexivity.
  - destruct (execute_values f 0 (pages (t :: records)) (reset_txn w))
      as [wv [[]|e]] eqn:Hv; [|intros E; inversion E].
    destruct (load_commit f); [intros E; inversion E|].
    intros E; inversion E; subst; clear E.
    change (bike_status (reset_txn (reset_txn (commit_txn wv))))
      with (bike_status wv).
    destruct (execute_values_frame _ _ _ _ _ _ Hv) as [_ Hbs].
    change (bike_status (reset_txn w)) with (bike_status w) in Hbs.
    rewrite Hbs, Hq.
    assert (Hkeys : forall t0, In t0 (List.concat (pages (t :: records))) ->
                    existsb (conflict t0)
                            (dest_txn (reset_txn (reset_txn (commit_txn wv)))) = true).
    { intros t0 Ht0. apply in_concat in Ht0. destruct Ht0 as [page [Hp Ht0]].
      destruct (execute_values_keys _ _ _ _ _ Hv) as [_ H]. simpl. eauto. }
    rewrite (execute_values_settle _ _ _ _ _ Hv _ Hkeys).
    assert (Hfix : map (settle (List.concat (pages (t :: records)))) (dest_txn wv)
                   = dest_txn wv).
    { rewrite <- (map_id (dest_txn wv)) at 2. apply map_ext_in. intros r Hr.
      apply (execute_values_settled _ _ _ _ _ [] (fun r _ => eq_refl) Hv r Hr). }
    simpl. rewrite Hfix.
    eexists. split; [reflexivity|]. split; reflexivity.
Qed.

End Rerun.

Lemma rerun_changes_nothing_witness :
  lambda_handler cet localize_cet session_utc no_faults now_jan16
                 (world_of v1_pings) = (world_with_v1, success) /\
  exists w2,
    lambda_handler cet localize_cet session_utc no_faults now_jan16 world_with_v1
      = (w2, success) /\
    all_trips w2 = all_trips world_with_v1 /\
    bike_status w2 = bike_status world_with_v1.
Proof.
  split; [exact v1_run|].
  exact (rerun_changes_nothing cet localize_cet session_utc no_faults now_jan16
                               (world_of v1_pings) world_with_v1 v1_run).
Defined.

(** ** Rows of other trips *)

Lemma upsert_untouched (rows : list Row.t) (id : Z) (t : Trip.t) (r : Row.t) :
  In r rows -> conflict t r = false -> In r (upsert rows id t).
Proof.
  intros Hr C. unfold upsert. destruct (existsb (conflict t) rows).
  - apply in_map_iff. exists r. now rewrite C.
  - apply in_or_app. now left.
Qed.

Lemma insert_on_conflict_untouched (page : list Trip.t) (r : Row.t) :
  (forall t, In t page -> conflict t r = false) ->
  forall rows seq affected seq' rows',
    In r rows ->
    insert_on_conflict rows seq affected page = (seq', Return rows') ->
    In r rows'.
Proof.
  induction page as [|t page IH]; intros Hpage rows seq affected seq' rows' Hr; simpl.
  - intros E; inversion E; subst. exact Hr.
  - destruct (existsb _ affected); [discriminate|].
    apply IH.
    + intros t' Ht'. apply Hpage. now right.
    + apply upsert_untouched; [exact Hr|]. apply Hpage. now left.
Qed.

Lemma execute_values_untouched (f : faults) (ps : list (list Trip.t)) (r : Row.t) :
  (forall t, In t (List.concat ps) -> conflict t r = false) ->
  forall (n : nat) (w w' : world) (o : outcome unit),
    In r (dest_txn w) ->
    execute_values f n ps w = (w', o) ->
    In r (dest_txn w').
Proof.
  induction ps as [|page ps IH]; intros Hps n w w' o Hr; simpl.
  - unfold ret. intros E; inversion E; subst. exact Hr.
  - unfold bind. destruct (insert_statement f n page w) as [w1 o1] eqn:Hs.
    assert (H1 : In r (dest_txn w1)).
    { unfold insert_statement in Hs. destruct (insert_execute f n).
      - inversion Hs; subst. exact Hr.
      - destruct (insert_on_conflict _ _ _ _) as [seq' [rows'|e]] eqn:Hi;
          inversion Hs; subst; simpl; [|exact Hr].
        eapply insert_on_conflict_untouched; [|exact Hr|exact Hi].
        intros t Ht. apply Hps. simpl. apply in_or_app. now left. }
    destruct o1 as [[]|e].
    + apply IH; [|exact H1]. intros t Ht. apply Hps. simpl.
      apply in_or_app. now right.
    + intros E; inversion E; subst. exact H1.
Qed.

Section OtherRows.

Variables zurich localize cast_timestamp : Z -> Z.

(** X14: a row of the destination whose [(bike_id, trip_start)] is
    that of no trip the query returns is in the destination after the
    run, unchanged, whatever happens in the run. *)
Theorem run_leaves_other_rows (f : faults) (now : Z) (w : world) (r : Row.t) :
  In r (all_trips w) ->
  (forall t,
      In t (extract_query zurich (cast_timestamp (localize now - day))
                          (cast_timestamp (localize now)) (bike_status w)) ->
      conflict t r = false) ->
  In r (all_trips (fst (lambda_handler zurich localize cast_timestamp f now w))).
Proof.
  intros Hr Hother. unfold lambda_handler.
  assert (Hin : forall w' o,
             handler_body zurich localize cast_timestamp f now w = (w', o) ->
             In r (all_trips w')).
  { intros w' o. rewrite handler_body_cases.
    destruct (connect_source f); [intros E; now inversion E; subst|].
    destruct (connect_dest f); [intros E; now inversion E; subst|].
    destruct (create_table_execute f); [intros E; now inversion E; subst|].
    destruct (create_table_commit f); [intros E; now inversion E; subst|].
    rewrite extract_and_load_data_cases.
    destruct (extract_execute f); [intros E; now inversion E; subst|].
    change (bike_status (reset_txn w)) with (bike_status w).
    destruct (extract_query _ _ _ _) as [|t records] eqn:Hq;
      [intros E; now inversion E; subst|].
    destruct (execute_values _ _ _ _) as [w1 o1] eqn:Hv.
    pose proof (execute_values_frame _ _ _ _ _ _ Hv) as [Ha _].
    eapply execute_values_untouched in Hv; [| |exact Hr].
    - destruct o1 as [[]|e]; [destruct (load_commit f)|];
        intros E; inversion E; subst; simpl; try (rewrite Ha; exact Hr).
      exact Hv.
    - intros t0 Ht0. apply Hother. rewrite pages_concat in Ht0. exact Ht0. }
  destruct (handler_body zurich localize cast_timestamp f now w) as [w' [[]|e]] eqn:Hb;
    simpl; eapply Hin; reflexivity.
Qed.

End OtherRows.

Lemma run_leaves_other_rows_witness :
  In old_row (all_trips (world_of v1_pings)) /\
  In old_row (all_trips (fst (lambda_handler cet localize_cet session_utc no_faults
                                             now_jan16 (world_of v1_pings)))).
Proof.
  assert (Hr : In old_row (all_trips (world_of v1_pings))) by (now left).
  split; [exact Hr|].
  apply (run_leaves_other_rows cet localize_cet session_utc no_faults now_jan16
                               (world_of v1_pings) old_row Hr).
  intros t Ht.
  destruct window_of_now_jan16 as [H1 H2].
  unfold session_utc in H1, H2.
  change (bike_status (world_of v1_pings)) with v1_pings in Ht.
  unfold session_utc in Ht. rewrite H1, H2, v1_query in Ht.
  destruct Ht as [<-|[]]. reflexivity.
Defined.

(** * The weather job *)

(** X15: the job does its work only when the clock reads from
    11:45:00 up to, but not including, 11:56:00; at any other time it
    answers 200 "outside execution window" with the time it read, and
    neither connects to the database nor sends a request, whatever
    state they are in. *)
Theorem weather_execution_window :
  (forall t : Z,
      Weather.in_execution_window t = true <->
      (42300000000 <= t mod 86400000000 < 42960000000)%Z) /\
  (forall (e : Weather.env) (w : Weather.world),
      Weather.in_execution_window (Weather.now_start e) = false ->
      Weather.lambda_handler e w =
      (w, Weather.mk_response 200 (Weather.OutsideWindow (Weather.now_start e)))).
Proof.
  split.
  - intros t. unfold Weather.in_execution_window, hour, minute.
    rewrite negb_true_iff, !orb_false_iff, negb_false_iff.
    rewrite Z.eqb_eq, !Z.ltb_ge.
    Z.div_mod_to_equations. lia.
  - intros e w H. unfold Weather.lambda_handler. now rewrite H.
Qed.

Lemma weather_process_city_cases (e : Weather.env) (w : Weather.world)
      (item : string * (string * string)) :
  Weather.process_city e w item =
  match Weather.city_row e item with
  | Some r =>
      (Weather.mk_world
         (Weather.weather_data w ++ [r (Weather.weather_data_id_seq w + 1)%Z])
         (Weather.weather_data_id_seq w + 1),
       true)
  | None => (w, false)
  end.
Proof.
  destruct item as [c [lat lon]].
  unfold Weather.process_city, Weather.city_row, Weather.insert_weather_data.
  destruct (Weather.fetch_current_weather e lat lon) as [weather|]; [|reflexivity].
  destruct (negb (Json.truthy weather)); [reflexivity|].
  destruct (Weather.fetch_air_quality e lat lon) as [air|]; [|reflexivity].
  destruct (Weather.insert_params e c weather air) as [r|]; [|reflexivity].
  now destruct (Weather.insert e c).
Qed.

Lemma weather_process_cities_spec (e : Weather.env)
      (items : list (string * (string * string))) :
  forall (w : Weather.world) (successful failed : list string),
    Weather.process_cities e w successful failed items =
    (Weather.mk_world
       (Weather.weather_data w ++
        Weather.added_rows e (Weather.weather_data_id_seq w) items)
       (Weather.weather_data_id_seq w +
        Z.of_nat (List.length (filter (Weather.succeeds e) items))),
     (successful ++ map fst (filter (Weather.succeeds e) items),
      failed ++ map fst (filter (fun i => negb (Weather.succeeds e i)) items))).
Proof.
  induction items as [|item items IH]; intros w successful failed.
  - simpl. rewrite !app_nil_r, Z.add_0_r. now destruct w.
  - cbn [Weather.process_cities Weather.added_rows filter].
    rewrite weather_process_city_cases.
    destruct (Weather.city_row e item) as [r|] eqn:Hr.
    + assert (Hs : Weather.succeeds e item = true)
        by (unfold Weather.succeeds; now rewrite Hr).
      rewrite Hs, IH.
      cbn [Weather.weather_data Weather.weather_data_id_seq negb map fst
           List.length].
      rewrite <- !app_assoc. cbn [app].
      replace (Weather.weather_data_id_seq w + 1 +
               Z.of_nat (List.length (filter (Weather.succeeds e) items)))%Z
        with (Weather.weather_data_id_seq w +
              Z.of_nat (S (List.length (filter (Weather.succeeds e) items))))%Z
        by lia.
      reflexivity.
    + assert (Hs : Weather.succeeds e item = false)
        by (unfold Weather.succeeds; now rewrite Hr).
      rewrite Hs, IH.
      cbn [negb map fst]. rewrite <- !app_assoc. reflexivity.
Qed.

Lemma filter_partition_perm {A : Type} (f : A -> bool) (l : list A) :
  Permutation (filter f l ++ filter (fun x => negb (f x)) l) l.
Proof.
  induction l as [|x l IH]; simpl; [constructor|].
  destruct (f x); simpl.
  - now constructor.
  - rewrite <- Permutation_middle. now constructor.
Qed.

(** X16: a run in the window that reaches the database answers 200,
    whatever happens to the cities: each of the six cities is in
    exactly one of [successful_cities] and [failed_cities], both in
    the order of [CITIES]; the table gains one row per successful
    city, in that order and after the rows it had, and loses none. *)
Theorem weather_run_outcome (e : Weather.env) (w : Weather.world) :
  Weather.in_execution_window (Weather.now_start e) = true ->
  Weather.connect e = None -> Weather.create_table e = None ->
  let successful := map fst (filter (Weather.succeeds e) Weather.CITIES) in
  let failed :=
    map fst (filter (fun i => negb (Weather.succeeds e i)) Weather.CITIES) in
  let w' := fst (Weather.lambda_handler e w) in
  snd (Weather.lambda_handler e w) =
    Weather.mk_response 200 (Weather.Completed successful failed (Weather.now_end e)) /\
  Permutation (successful ++ failed) (map fst Weather.CITIES) /\
  Weather.weather_data w' =
    Weather.weather_data w ++
    Weather.added_rows e (Weather.weather_data_id_seq w) Weather.CITIES /\
  map Weather.city
      (Weather.added_rows e (Weather.weather_data_id_seq w) Weather.CITIES)
    = successful.
Proof.
  intros Hwin Hc Ht successful failed w'.
  subst w'. unfold Weather.lambda_handler. rewrite Hwin, Hc, Ht. simpl negb.
  cbv iota. rewrite weather_process_cities_spec. simpl fst. simpl snd.
  split; [reflexivity|]. split; [|split; [reflexivity|]].
  - unfold successful, failed. rewrite <- map_app.
    apply Permutation_map, filter_partition_perm.
  - unfold successful. generalize (Weather.weather_data_id_seq w).
    induction Weather.CITIES as [|item items IH]; intros seq; simpl; [reflexivity|].
    unfold Weather.succeeds at 1.
    destruct (Weather.city_row e item) as [r|] eqn:Hr; simpl; [|apply IH].
    rewrite IH. f_equal.
    destruct item as [c [lat lon]]. unfold Weather.city_row in Hr.
    destruct (Weather.fetch_current_weather e lat lon) as [weather|]; [|discriminate].
    destruct (negb (Json.truthy weather)); [discriminate|].
    destruct (Weather.fetch_air_quality e lat lon) as [air|]; [|discriminate].
    unfold Weather.insert_params, obind in Hr.
    destruct (Weather.air_value air "main" "aqi"); [|discriminate].
    destruct (Weather.main_value weather "temp"); [|discriminate].
    destruct (Weather.main_value weather "humidity"); [|discriminate].
    destruct (Weather.air_value air "components" "pm2_5"); [|discriminate].
    destruct (Weather.insert e c); [discriminate|].
    inversion Hr; subst. reflexivity.
Qed.

Lemma weather_run_outcome_witness :
  Weather.in_execution_window (Weather.now_start zurich_only) = true /\
  Weather.lambda_handler zurich_only (Weather.mk_world [] 0) =
  (Weather.mk_world [zurich_row] 1,
   Weather.mk_response 200
     (Weather.Completed ["Zurich"%string]
        ["Lucerne"; "Geneva"; "Basel"; "Bern"; "Lausanne"]%string
        (Weather.now_end zurich_only))).
Proof.
  assert (Hwin : Weather.in_execution_window (Weather.now_start zurich_only) = true)
    by reflexivity.
  split; [exact Hwin|].
  destruct (weather_run_outcome zurich_only (Weather.mk_world [] 0)
              Hwin eq_refl eq_refl) as [Hresp _].
  rewrite (surjective_pairing (Weather.lambda_handler zurich_only _)).
  rewrite Hresp. f_equal.
Defined.

(** X17: the run answers 500 only when it is in the window and cannot
    connect or cannot create its table, and then it has written
    nothing; no failure of a request, of a city or of an INSERT makes
    the run fail. *)
Theorem weather_status (e : Weather.env) (w : Weather.world) :
  let r := snd (Weather.lambda_handler e w) in
  (Weather.statusCode r = 200%Z \/ Weather.statusCode r = 500%Z) /\
  (Weather.statusCode r = 500%Z <->
   Weather.in_execution_window (Weather.now_start e) = true /\
   (Weather.connect e <> None \/ Weather.create_table e <> None)) /\
  (Weather.statusCode r = 500%Z -> fst (Weather.lambda_handler e w) = w).
Proof.
  unfold Weather.lambda_handler.
  destruct (Weather.in_execution_window (Weather.now_start e));
    [destruct (Weather.connect e) as [x|];
     [|destruct (Weather.create_table e) as [x|];
       [|destruct (Weather.process_cities e w [] [] Weather.CITIES)
           as [w' [s f]]]]|];
    simpl; intuition (try discriminate; try congruence).
Qed.

(** X18: a city whose weather is answered with a [main] object and
    whose air quality request fails is successful all the same: its
    row has the temperature and the humidity, and NULL for [aqi] and
    [pm25]. *)
Theorem weather_air_quality_optional
        (e : Weather.env) (w : Weather.world) (c lat lon x : string)
        (weather t h : Json.t) :
  Weather.requests_get e (Weather.weather_url lat lon) = Response weather ->
  Json.truthy weather = true ->
  Weather.main_value weather "temp" = Return t ->
  Weather.main_value weather "humidity" = Return h ->
  Weather.requests_get e (Weather.air_url lat lon) = RequestException x ->
  Weather.insert e c = None ->
  Weather.process_city e w (c, (lat, lon)) =
  (Weather.mk_world
     (Weather.weather_data w ++
      [Weather.mk_row (Weather.weather_data_id_seq w + 1) c Json.Null t h Json.Null
                      (Weather.now_insert e c)])
     (Weather.weather_data_id_seq w + 1),
   true).
Proof.
  intros Hw Htruthy Ht Hh Ha Hi.
  unfold Weather.process_city, Weather.fetch_current_weather,
    Weather.fetch_air_quality, Weather.fetch.
  rewrite Hw, Htruthy, Ha. simpl negb. cbv iota.
  unfold Weather.insert_weather_data, Weather.insert_params.
  unfold Weather.air_value. simpl Json.truthy. cbv iota.
  unfold obind at 1. rewrite Ht. unfold obind at 1. rewrite Hh.
  unfold obind. now rewrite Hi.
Qed.

Lemma weather_air_quality_optional_witness :
  Weather.process_city zurich_only (Weather.mk_world [] 0)
                       ("Zurich", ("47.3769", "8.5417"))%string =
  (Weather.mk_world [zurich_row] 1, true).
Proof.
  exact (weather_air_quality_optional zurich_only (Weather.mk_world [] 0)
           "Zurich" "47.3769" "8.5417" "Read timed out" zurich_weather
           (Json.Number 3.5) (Json.Number 80)
           eq_refl eq_refl eq_refl eq_refl eq_refl eq_refl).
Defined.

(** * The bike job *)

Lemma bike_data_rows (t : Z) (bikes : list Json.t) :
  forall rows,
    Bike.bike_data t bikes = Return rows ->
    Forall2 (fun bike r => Bike.bike_row t bike = Return r) bikes rows /\
    Forall (fun r => Bike.timestamp r = t) rows.
Proof.
  induction bikes as [|bike bikes IH]; intros rows; simpl.
  - intros E; inversion E; subst. split; constructor.
  - destruct (Bike.bike_row t bike) as [r|] eqn:Hr; simpl; [|discriminate].
    destruct (Bike.bike_data t bikes) as [rs|]; simpl; [|discriminate].
    intros E; inversion E; subst. destruct (IH rs eq_refl) as [H2 Ht].
    split; constructor; try assumption.
    unfold Bike.bike_row, obind in Hr.
    repeat match type of Hr with
           | match ?x with _ => _ end = _ => destruct x; [|discriminate]
           end.
    inversion Hr; subst. reflexivity.
Qed.

Lemma bike_data_raise (t : Z) (bikes : list Json.t) (bike : Json.t) (x : string) :
  In bike bikes -> Bike.bike_row t bike = Raise x ->
  exists x', Bike.bike_data t bikes = Raise x'.
Proof.
  induction bikes as [|b bikes IH]; intros Hin Hr; [contradiction|]. simpl.
  destruct Hin as [->|Hin].
  - rewrite Hr. simpl. eauto.
  - destruct (Bike.bike_row t b); simpl; [|eauto].
    destruct (IH Hin Hr) as [x' ->]. simpl. eauto.
Qed.

Lemma bike_execute_batch_rows (e : Bike.env) (ps : list (list Bike.row)) :
  forall n txn txn',
    Bike.execute_batch e n ps txn = Return txn' -> txn' = txn ++ List.concat ps.
Proof.
  induction ps as [|page ps IH]; intros n txn txn'; simpl.
  - intros E; inversion E. now rewrite app_nil_r.
  - destruct (Bike.insert_execute e n); [discriminate|].
    intros E. apply IH in E. now rewrite E, app_assoc.
Qed.

(** X19: the bike job writes all of a feed or nothing.  After a run
    the table is either as it was, and then the handler has raised;
    or it has gained one row per bike of the feed, in the order of
    the feed, all with the one time read before the insert.  In that
    case the handler returns status 200 with the number of bikes,
    unless the call on [context] after the commit raises: then the
    handler raises although the rows are committed. *)
Theorem bike_run_all_or_nothing (e : Bike.env) (bike_status : list Bike.row) :
  let table := fst (Bike.lambda_handler e bike_status) in
  let result := snd (Bike.lambda_handler e bike_status) in
  (table = bike_status /\ exists x, result = Raise x) \/
  (exists rows j bikes l,
      table = bike_status ++ rows /\
      Bike.requests_get e Bike.API_URL = Response j /\
      Bike.bikes_of j = Return bikes /\ Json.iterate bikes = Return l /\
      Forall2 (fun bike row => Bike.bike_row (Bike.now e) bike = Return row) l rows /\
      Forall (fun row => Bike.timestamp row = Bike.now e) rows /\
      match Bike.get_remaining_time_in_millis e with
      | None => result = Return (mk_response 200 (Bike.processed (List.length rows)))
      | Some x => result = Raise x
      end).
Proof.
  cbn zeta. unfold Bike.lambda_handler.
  destruct (Bike.connect e); [left; simpl; eauto|].
  destruct (Bike.create_execute e); [left; simpl; eauto|].
  destruct (Bike.create_commit e); [left; simpl; eauto|].
  destruct (Bike.requests_get e Bike.API_URL) as [j| |];
    try (left; simpl; eauto; fail).
  destruct (Bike.bikes_of j) as [bikes|] eqn:Hb; simpl; [|left; eauto].
  destruct (Json.iterate bikes) as [l|] eqn:Hl; simpl; [|left; eauto].
  destruct (Bike.bike_data (Bike.now e) l) as [rows|] eqn:Hd; [|left; simpl; eauto].
  destruct (Bike.execute_batch e 0 (pages rows) bike_status) as [txn|] eqn:Hx;
    [|left; simpl; eauto].
  destruct (Bike.commit e); [left; simpl; eauto|].
  apply bike_execute_batch_rows in Hx. rewrite pages_concat in Hx.
  apply bike_data_rows in Hd. destruct Hd as [H2 Ht].
  right. exists rows, j, bikes, l.
  destruct (Bike.get_remaining_time_in_millis e); simpl;
    repeat split; assumption.
Qed.

(** X20: one bike of the feed whose tuple cannot be built, as one of
    its six keys is missing or it is no object, and no row of the
    feed is written: the handler raises. *)
Theorem bike_missing_key (e : Bike.env) (bike_status : list Bike.row)
        (j bikes bike : Json.t) (l : list Json.t) (x : string) :
  Bike.requests_get e Bike.API_URL = Response j ->
  Bike.bikes_of j = Return bikes -> Json.iterate bikes = Return l ->
  In bike l -> Bike.bike_row (Bike.now e) bike = Raise x ->
  exists x', Bike.lambda_handler e bike_status = (bike_status, Raise x').
Proof.
  intros Hj Hb Hl Hin Hr. unfold Bike.lambda_handler.
  destruct (Bike.connect e); [eauto|].
  destruct (Bike.create_execute e); [eauto|].
  destruct (Bike.create_commit e); [eauto|].
  rewrite Hj, Hb. simpl. rewrite Hl. simpl.
  destruct (bike_data_raise _ _ _ _ Hin Hr) as [x' ->]. eauto.
Qed.

Lemma bike_missing_key_witness :
  Bike.bike_row jan15 bike_b = Raise "KeyError" /\
  exists x',
    Bike.lambda_handler (bike_env (Response (feed_of [bike_a; bike_b]))) [] =
    ([], Raise x').
Proof.
  assert (Hr : Bike.bike_row jan15 bike_b = Raise "KeyError") by reflexivity.
  split; [exact Hr|].
  apply (bike_missing_key (bike_env (Response (feed_of [bike_a; bike_b]))) []
                          (feed_of [bike_a; bike_b])
                          (Json.Array [bike_a; bike_b]) bike_b [bike_a; bike_b]
                          "KeyError" eq_refl eq_refl eq_refl);
    [right; now left|exact Hr].
Defined.

(** X21: a feed that is an object without [data], or whose [data] has
    no [bikes], is a success of zero records: nothing is inserted,
    and the handler returns 200. *)
Theorem bike_feed_without_bikes (e : Bike.env) (bike_status : list Bike.row)
        (d : list (string * Json.t)) :
  Bike.connect e = None -> Bike.create_execute e = None ->
  Bike.create_commit e = None -> Bike.commit e = None ->
  Bike.get_remaining_time_in_millis e = None ->
  Bike.requests_get e Bike.API_URL = Response (Json.Object d) ->
  Json.lookup d "data" = None \/
  (exists d', Json.lookup d "data" = Some (Json.Object d') /\
              Json.lookup d' "bikes" = None) ->
  Bike.lambda_handler e bike_status =
  (bike_status, Return (mk_response 200 "Successfully processed 0 bike records")).
Proof.
  intros Hc Hx Hcc Hcm Hctx Hj Hd. unfold Bike.lambda_handler.
  rewrite Hc, Hx, Hcc, Hj.
  assert (Hb : Bike.bikes_of (Json.Object d) = Return (Json.Array [])).
  { unfold Bike.bikes_of. simpl. destruct Hd as [->|[d' [-> Hd']]]; simpl.
    - reflexivity.
    - now rewrite Hd'. }
  rewrite Hb. simpl. now rewrite Hcm, Hctx.
Qed.

Lemma bike_feed_without_bikes_witness :
  Bike.lambda_handler (bike_env (Response (Json.Object []))) [] =
  ([], Return (mk_response 200 "Successfully processed 0 bike records")).
Proof.
  apply (bike_feed_without_bikes (bike_env (Response (Json.Object []))) [] []
                                 eq_refl eq_refl eq_refl eq_refl eq_refl eq_refl).
  now left.
Defined.

(** * The air quality job *)

Lemma air_flush_cases (e : Air.env) (k : nat) (table batch : list Air.row) :
  (Air.flush e k table batch = Return (table ++ batch) /\
   Air.executemany e k = None /\ Air.commit e k = None) \/
  (exists x, Air.flush e k table batch = Raise x /\
             (Air.executemany e k = Some x \/
              Air.executemany e k = None /\ Air.commit e k = Some x)).
Proof.
  unfold Air.flush.
  destruct (Air.executemany e k) as [x|]; [right; eauto|].
  destruct (Air.commit e k) as [x|]; [right; eauto|]. now left.
Qed.

Lemma firstn_prefix {A : Type} (l l' : list A) (n : nat) :
  List.length l = n -> firstn n (l ++ l') = l.
Proof.
  intros <-. rewrite firstn_app, firstn_all, Nat.sub_diag. simpl.
  now rewrite app_nil_r.
Qed.

(** The loop of [collect]: [results] is what the batches sent so far
    have committed on top of [table0]. *)
Lemma air_collect_spec (e : Air.env) (table0 : list Air.row) :
  forall futures k batch results,
    (List.length batch < 2)%nat -> List.length results = (2 * k)%nat ->
    let rows := results ++ batch ++ Air.fetched e futures in
    let run := Air.collect e k (table0 ++ results) batch results futures in
    (run = (table0 ++ rows,
            Return (Air.mk_response 200
                      (Air.Recorded (Air.recorded (List.length rows)) rows)))) \/
    (exists x k',
        run = (table0 ++ firstn (2 * k') rows, Raise x) /\
        (k <= k')%nat /\ (2 * k' < List.length rows)%nat /\
        (Air.executemany e k' = Some x \/
         Air.executemany e k' = None /\ Air.commit e k' = Some x)).
Proof.
  induction futures as [|item futures IH]; intros k batch results Hb Hr.
  - cbn zeta. cbn [Air.collect Air.fetched flat_map]. rewrite app_nil_r.
    destruct batch as [|r batch].
    + left. now rewrite app_nil_r.
    + destruct (air_flush_cases e k (table0 ++ results) (r :: batch))
        as [[-> _]|[x [-> Hx]]].
      * left. now rewrite app_assoc.
      * right. exists x, k. rewrite (firstn_prefix _ _ _ Hr).
        repeat split; try assumption; [lia|].
        rewrite length_app, Hr. simpl. lia.
  - cbn zeta. cbn [Air.collect Air.fetched flat_map].
    fold (Air.fetched e futures).
    set (batch' := match Air.fetch_city_data e item with
                   | Some r => batch ++ [r]
                   | None => batch
                   end).
    assert (Hrows : batch ++ (match Air.fetch_city_data e item with
                              | Some r => [r]
                              | None => []
                              end) ++ Air.fetched e futures =
                    batch' ++ Air.fetched e futures).
    { subst batch'. destruct (Air.fetch_city_data e item); simpl.
      - now rewrite <- app_assoc.
      - reflexivity. }
    rewrite Hrows.
    destruct (2 <=? List.length batch')%nat eqn:Hlen.
    + apply Nat.leb_le in Hlen.
      assert (Hlen2 : List.length batch' = 2%nat).
      { subst batch'. destruct (Air.fetch_city_data e item).
        - rewrite length_app in *. simpl in *. lia.
        - lia. }
      destruct (air_flush_cases e k (table0 ++ results) batch')
        as [[-> _]|[x [-> Hx]]].
      * assert (Hr' : List.length (results ++ batch') = (2 * S k)%nat)
          by (rewrite length_app; lia).
        specialize (IH (S k) [] (results ++ batch') ltac:(simpl; lia) Hr').
        cbn zeta in IH. rewrite <- !app_assoc in IH. simpl in IH.
        rewrite <- app_assoc.
        destruct IH as [IH|[x [k' [IH [Hk [Hk' Hx]]]]]]; [now left|].
        right. exists x, k'. repeat split; try assumption. lia.
      * right. exists x, k. rewrite (firstn_prefix _ _ _ Hr).
        repeat split; try assumption; [lia|].
        rewrite !length_app, Hr. lia.
    + apply Nat.leb_gt in Hlen.
      specialize (IH k batch' results Hlen Hr). cbn zeta in IH. exact IH.
Qed.

(** X22: what a run of the air job leaves in [air_quality].  With the
    database connected, the rows of the run are the tuples of the
    requests that gave one, in the order of completion.  Either the
    handler returns 200, all of them are in the table and the body
    lists exactly them; or batch [k] failed in its [executemany] or
    its commit, and the table keeps the [2 * k] rows of the batches
    committed before.  In that case the handler rolls back and
    returns 500 with the message only, which does not mention those
    rows; when the rollback raises as well, its exception leaves the
    handler and there is no response.  When the requests complete in
    another order the rows are the same up to order. *)
Theorem air_run (e : Air.env) (air_quality : list Air.row) :
  Air.connect e = None ->
  let rows := Air.fetched e (Air.completion e) in
  let run := Air.lambda_handler e air_quality in
  ((run = (air_quality ++ rows,
           Return (Air.mk_response 200
                     (Air.Recorded (Air.recorded (List.length rows)) rows)))) \/
   (exists x k,
       fst run = air_quality ++ firstn (2 * k) rows /\
       (2 * k < List.length rows)%nat /\
       (Air.executemany e k = Some x \/
        Air.executemany e k = None /\ Air.commit e k = Some x) /\
       snd run = match Air.rollback e with
                 | None => Return (Air.mk_response 500 (Air.Error x))
                 | Some x' => Raise x'
                 end)) /\
  (Permutation (Air.completion e) Air.SWISS_CITIES ->
   Permutation rows (Air.fetched e Air.SWISS_CITIES)).
Proof.
  intros Hc rows run. split.
  - subst run. unfold Air.lambda_handler. rewrite Hc.
    pose proof (air_collect_spec e air_quality (Air.completion e) 0 [] []
                                 ltac:(simpl; lia) eq_refl) as H.
    cbn zeta in H. rewrite app_nil_r in H. simpl app in H.
    fold rows in H.
    destruct H as [->|[x [k [-> [_ [Hk Hx]]]]]]; [now left|].
    right. exists x, k. unfold Air.rolled_back.
    destruct (Air.rollback e); now repeat split.
  - intros Hp. subst rows. unfold Air.fetched. now apply Permutation_flat_map.
Qed.

Lemma air_run_witness :
  Air.connect air_env = None /\
  Air.lambda_handler air_env [] =
  ([Air.mk_row "zurich" (Json.Number 42) (Json.Number 3.5) Json.Null Json.Null],
   Return
     (Air.mk_response 200
        (Air.Recorded "Successfully recorded air quality data for 1 cities"
           [Air.mk_row "zurich" (Json.Number 42) (Json.Number 3.5)
                       Json.Null Json.Null]))).
Proof.
  split; [reflexivity|].
  destruct (air_run air_env [] eq_refl) as [[H|[x [k [_ [_ [Hx _]]]]]] _].
  - exact H.
  - destruct Hx as [Hx|[_ Hx]]; discriminate Hx.
Defined.

Lemma air_fetched_nil (e : Air.env) (futures : list (string * string)) :
  (forall item j, In item futures ->
                  Air.requests_get e (Air.feed_url e (snd item)) <> Response j) ->
  Air.fetched e futures = [].
Proof.
  induction futures as [|item futures IH]; intros H; [reflexivity|].
  unfold Air.fetched. cbn [flat_map]. fold (Air.fetched e futures).
  rewrite IH by (intros i j Hi; apply H; now right).
  unfold Air.fetch_city_data, Air.get_air_quality_data.
  destruct (Air.requests_get e (Air.feed_url e (snd item))) as [j| |] eqn:E;
    try reflexivity.
  exfalso. apply (H item j); [now left|exact E].
Qed.

(** X23: when no request of a run is answered, the air job still
    returns 200, with zero cities, and sends nothing to the database:
    the table is as it was even if the database would have refused
    every statement. *)
Theorem air_all_requests_fail (e : Air.env) (air_quality : list Air.row) :
  Air.connect e = None ->
  (forall item j, In item (Air.completion e) ->
                  Air.requests_get e (Air.feed_url e (snd item)) <> Response j) ->
  Air.lambda_handler e air_quality =
  (air_quality,
   Return (Air.mk_response 200
             (Air.Recorded "Successfully recorded air quality data for 0 cities" []))).
Proof.
  intros Hc Hf. unfold Air.lambda_handler. rewrite Hc.
  pose proof (air_collect_spec e air_quality (Air.completion e) 0 [] []
                               ltac:(simpl; lia) eq_refl) as H.
  cbn zeta in H. rewrite (air_fetched_nil _ _ Hf) in H.
  rewrite !app_nil_r in H. simpl app in H.
  destruct H as [->|[x [k [_ [_ [Hk _]]]]]]; [reflexivity|].
  simpl in Hk. lia.
Qed.

Lemma air_all_requests_fail_witness :
  Air.lambda_handler air_offline [] =
  ([], Return (Air.mk_response 200
                 (Air.Recorded "Successfully recorded air quality data for 0 cities" []))).
Proof.
  apply (air_all_requests_fail air_offline [] eq_refl).
  intros item j _. discriminate.
Defined.
